(** * aws-to-slack: the Lambda handler of [src/index.js]

    A shallow embedding of [LambdaHandler.processEvent] and
    [LambdaHandler.handler], and the properties of the dispatch engine.

    JavaScript objects live in a store and are handled by reference, so that
    copies and aliases are what they are in the program.  The parsers
    ([./parsers/...]), the Slack client ([./slack]) and the JSON built-ins
    are collaborators of the handler: they are arguments of the embedding
    and may read and change the store.  [console] and the Lambda
    [callback] are taken not to raise; what they are called with is
    recorded in a trace. *)

From stdpp Require Import gmap strings list fin_maps pretty.
From Stdlib Require Import ZArith.

Open Scope string_scope.
Open Scope list_scope.
Open Scope stdpp_scope.

(** ** Values, store, exceptions *)

Definition loc := positive.

(** Primitive values are immediate; objects and arrays are references.
    The numbers are the integers and NaN: the handler only tests a number
    for truthiness. *)
Inductive value :=
| VUndefined
| VNull
| VBool (b : bool)
| VNum (n : Z)
| VNaN
| VStr (s : string)
| VRef (l : loc).

(** A plain object is a finite map of its own enumerable properties, an
    array is the list of its elements. *)
Inductive cell :=
| CObj (fields : gmap string value)
| CArr (elems : list value).

Abbreviation heap := (gmap loc cell).

(** What a [throw] carries.  [TypeError] is the error the engine itself
    raises on a property access it cannot perform. *)
Inductive exn :=
| TypeError
| Thrown (v : value).

Inductive result (A : Type) :=
| Ok (a : A)
| Raise (e : exn).
Arguments Ok {A} a.
Arguments Raise {A} e.

Definition raises {A} (r : result A) : bool :=
  match r with Ok _ => false | Raise _ => true end.

#[global] Instance value_eq_dec : EqDecision value.
Proof. solve_decision. Defined.
#[global] Instance exn_eq_dec : EqDecision exn.
Proof. solve_decision. Defined.

(** ** What the handler does to the outside world *)

Inductive level := Log | Error.

Inductive arg :=
| AVal (v : value)
| AExn (e : exn).

(** The trace lists, in order, the console output, the calls made to the
    collaborators and each entry into [processEvent] (with the store the
    event is read in).  [New] and [Parse] mark the call of a parser's
    constructor and of its [parse]; [Post] is a call of [Slack.postMessage]
    with the error it raised, if any. *)
Inductive obs :=
| Console (lvl : level) (args : list arg)
| Enter (event : value) (h : heap)
| New (name : string)
| Parse (name : string) (event : value)
| Post (message : value) (failure : option exn)
| Callback (err : option exn).

(** [lastParser] is the field of the [LambdaHandler] instance; [None] is
    its initial [null]. *)
Record state := State {
  store : heap;
  lastParser : option string;
  trace : list obs
}.

(** ** A state and exception monad *)

Definition M (A : Type) : Type := state → result A * state.

#[global] Instance M_ret : MRet M := λ A a s, (Ok a, s).
#[global] Instance M_bind : MBind M := λ A B f m s,
  match m s with
  | (Ok a, s') => f a s'
  | (Raise e, s') => (Raise e, s')
  end.

(** [try { body } catch (e) { handle e }] *)
Definition try_catch {A} (body : M A) (handle : exn → M A) : M A := λ s,
  match body s with
  | (Ok a, s') => (Ok a, s')
  | (Raise e, s') => handle e s'
  end.

Definition emit (o : obs) : M unit := λ s,
  (Ok tt, State (store s) (lastParser s) (trace s ++ [o])).

Definition console_log (args : list arg) : M unit := emit (Console Log args).
Definition console_error (args : list arg) : M unit := emit (Console Error args).

Definition get_store : M heap := λ s, (Ok s.(store), s).
Definition get_lastParser : M (option string) := λ s, (Ok s.(lastParser), s).
Definition set_lastParser (p : option string) : M unit := λ s,
  (Ok tt, State (store s) p (trace s)).

(** A call into a collaborator: it sees the store and may change it. *)
Definition call {A} (f : heap → result A * heap) : M A := λ s,
  let '(r, h) := f s.(store) in (r, State h (lastParser s) (trace s)).

(** An operation that reads the store and leaves it alone; it may raise. *)
Definition read {A} (f : heap → result A) : M A := λ s, (f s.(store), s).

(** The same for an operation that cannot raise. *)
Definition look {A} (f : heap → A) : M A := λ s, (Ok (f s.(store)), s).

(** Allocation of a new object or array. *)
Definition alloc (c : cell) : M value := λ s,
  let l := fresh (dom s.(store)) in
  (Ok (VRef l), State (<[l := c]> s.(store)) (lastParser s) (trace s)).

(** ** The language's own operations *)

(** ToBoolean *)
Definition truthy (v : value) : bool :=
  match v with
  | VUndefined | VNull | VNaN => false
  | VBool b => b
  | VNum n => negb (n =? 0)%Z
  | VStr s => negb (String.eqb s "")
  | VRef _ => true
  end.

(** [message === true] *)
Definition is_true (v : value) : bool :=
  match v with VBool true => true | _ => false end.

(** [v.k] for a property name [k] that is not an array index.  Reading a
    property of [null] or [undefined] raises; a primitive has none of the
    properties read here; an array has [length]. *)
Definition get_prop (v : value) (k : string) (h : heap) : result value :=
  match v with
  | VUndefined | VNull => Raise TypeError
  | VStr s => Ok (if String.eqb k "length" then VNum (Z.of_nat (String.length s)) else VUndefined)
  | VRef l =>
      match h !! l with
      | Some (CObj m) => Ok (default VUndefined (m !! k))
      | Some (CArr a) => Ok (if String.eqb k "length" then VNum (Z.of_nat (length a)) else VUndefined)
      | None => Ok VUndefined
      end
  | _ => Ok VUndefined
  end.

(** [v[i]] for the index [i] of a [for (const i in ...)] loop. *)
Definition get_index (v : value) (i : nat) (h : heap) : result value :=
  match v with
  | VUndefined | VNull => Raise TypeError
  | VStr s => Ok (match String.get i s with Some c => VStr (String c "") | None => VUndefined end)
  | VRef l =>
      match h !! l with
      | Some (CObj m) => Ok (default VUndefined (m !! pretty i))
      | Some (CArr a) => Ok (default VUndefined (a !! i))
      | None => Ok VUndefined
      end
  | _ => Ok VUndefined
  end.

(** [v.k = x] in strict mode: raises on [null], [undefined] and on
    primitives. *)
Definition set_prop (v : value) (k : string) (x : value) : M unit := λ s,
  match v with
  | VRef l =>
      match s.(store) !! l with
      | Some (CObj m) =>
          (Ok tt, State (<[l := CObj (<[k := x]> m)]> s.(store)) (lastParser s) (trace s))
      | _ => (Ok tt, s)
      end
  | _ => (Raise TypeError, s)
  end.

(** [n > 1] for the [length] of an array. *)
Definition gt_1 (v : value) : bool :=
  match v with VNum n => (1 <? n)%Z | _ => false end.

(** The keys a [for ... in] loop over [v] starts with: the indices of an
    array, in ascending order. *)
Definition for_in_keys (v : value) (h : heap) : list nat :=
  match v with
  | VRef l => match h !! l with Some (CArr a) => seq 0 (length a) | _ => [] end
  | _ => []
  end.

(** A key deleted before the loop reaches it is not visited. *)
Definition has_index (v : value) (i : nat) (h : heap) : bool :=
  match v with
  | VRef l => match h !! l with Some (CArr a) => bool_decide (i < length a)%nat | _ => false end
  | _ => false
  end.

(** Template literals: [`${v}`] for the values interpolated by the handler. *)
Definition String_of (v : value) : string :=
  match v with
  | VUndefined => "undefined"
  | VNull => "null"
  | VBool true => "true"
  | VBool false => "false"
  | VNum n => pretty n
  | VNaN => "NaN"
  | VStr s => s
  | VRef _ => "[object Object]"
  end.

(** ** lodash *)

Module lodash.

Definition isString (v : value) : bool :=
  match v with VStr _ => true | _ => false end.

Definition isArray (v : value) (h : heap) : bool :=
  match v with
  | VRef l => match h !! l with Some (CArr _) => true | _ => false end
  | _ => false
  end.

(** [_.isEmpty]: strings and arrays are empty when their length is 0,
    objects when they have no own enumerable string keyed property;
    every other value (null, undefined, booleans, numbers) is empty. *)
Definition isEmpty (v : value) (h : heap) : bool :=
  match v with
  | VStr s => String.eqb s ""
  | VRef l =>
      match h !! l with
      | Some (CObj m) => bool_decide (m = ∅)
      | Some (CArr a) => bool_decide (a = [])
      | None => true
      end
  | _ => true
  end.

(** The own enumerable properties [_.assign] copies from a source. *)
Definition own_props (v : value) (h : heap) : gmap string value :=
  match v with
  | VRef l =>
      match h !! l with
      | Some (CObj m) => m
      | Some (CArr a) => list_to_map (imap (λ i x, (pretty i, x)) a)
      | None => ∅
      end
  | _ => ∅
  end.

(** [_.assign(target, src1, src2)]: the sources are applied left to
    right, a later source overwrites; the target is changed in place and
    returned. *)
Definition assign (target src1 src2 : value) : M value := λ s,
  match target with
  | VRef l =>
      match s.(store) !! l with
      | Some (CObj m) =>
          let m' := own_props src2 s.(store) ∪ (own_props src1 s.(store) ∪ m) in
          (Ok target, State (<[l := CObj m']> s.(store)) (lastParser s) (trace s))
      | _ => (Ok target, s)
      end
  | _ => (Ok target, s)
  end.

End lodash.

(** The specification's "empty" (4.2, 9): a structurally empty mapping or
    sequence, that is an object without a property or an array without an
    element. *)
Definition structurally_empty (v : value) (h : heap) : bool :=
  match v with
  | VRef l =>
      match h !! l with
      | Some (CObj m) => bool_decide (m = ∅)
      | Some (CArr a) => bool_decide (a = [])
      | None => true
      end
  | _ => false
  end.

(** ** The content of a value *)

(** What a value holds, to a depth: a primitive value is what it is; a
    reference is the object or the array it refers to, with the content
    of each property or element to the depth below.  Two messages that are
    different objects with the same properties have the same content. *)
#[local] Unset Elimination Schemes.
Inductive tree :=
| TUndefined
| TNull
| TBool (b : bool)
| TNum (n : Z)
| TNaN
| TStr (s : string)
| TObj (fields : list (string * tree))
| TArr (elems : list tree)
| TDeeper
| TDangling.
#[local] Set Elimination Schemes.

Fixpoint content (depth : nat) (h : heap) (v : value) : tree :=
  match v with
  | VUndefined => TUndefined
  | VNull => TNull
  | VBool b => TBool b
  | VNum n => TNum n
  | VNaN => TNaN
  | VStr s => TStr s
  | VRef l =>
      match depth with
      | 0 => TDeeper
      | S d =>
          match h !! l with
          | Some (CObj m) => TObj ((λ kv, (kv.1, content d h kv.2)) <$> map_to_list m)
          | Some (CArr a) => TArr (content d h <$> a)
          | None => TDangling
          end
      end
  end.

(** [v] in the store [h] and [v'] in the store [h'] are the same value:
    they have the same content to every depth. *)
Definition same_value (v : value) (h : heap) (v' : value) (h' : heap) : Prop :=
  ∀ depth, content depth h v = content depth h' v'.

(** ** Reading a trace *)

(** The names of the parsers instantiated, in order. *)
Definition constructed (t : list obs) : list string :=
  omap (λ o, match o with New name => Some name | _ => None end) t.

(** The runs of [processEvent]: the event of each and the store it is in. *)
Definition entered (t : list obs) : list (value * heap) :=
  omap (λ o, match o with Enter event h => Some (event, h) | _ => None end) t.

(** The calls of [Slack.postMessage], with their outcome. *)
Definition posted (t : list obs) : list (value * option exn) :=
  omap (λ o, match o with Post message f => Some (message, f) | _ => None end) t.

(** The errors raised by [Slack.postMessage]. *)
Definition sink_errors (t : list obs) : list exn :=
  omap snd (posted t).

(** The console output. *)
Definition console (t : list obs) : list (level * list arg) :=
  omap (λ o, match o with Console lvl args => Some (lvl, args) | _ => None end) t.

(** The calls of [callback]. *)
Definition callbacks (t : list obs) : list (option exn) :=
  omap (λ o, match o with Callback err => Some err | _ => None end) t.

(** The diagnostic of line 68. *)
Definition parse_error (name : string) (e : exn) : obs :=
  Console Error [AVal (VStr ("Error parsing event [parser:" +:+ name +:+ "]:")); AExn e].

(** Lines 134-139: [callback()] after the work, or the [catch]. *)
Definition finish (run : result unit * state) : result unit * state :=
  match run with
  | (Ok _, s1) => (Ok tt, State (store s1) (lastParser s1) (trace s1 ++ [Callback None]))
  | (Raise e, s1) =>
      (Ok tt, State (store s1) (lastParser s1)
                (trace s1 ++ [Console Log [AVal (VStr "ERROR:"); AExn e];
                              Callback (Some e)]))
  end.

(** ** The handler *)

Section LambdaHandler.

(** A parser class: [new P()] gives an instance, [parser.parse(event)] is
    awaited; either may raise (a rejected promise raises at the [await]).
    [set_field] is the assignment [parser.k = v] of strict mode: an
    instance that refuses the write (a frozen object, a property with a
    getter and no setter) raises; the property is the instance's own, so
    that the write changes no object of the store, and a write that
    returns has set the property. *)
Variable instance : Type.

Record classifier := Classifier {
  construct : heap → result instance * heap;
  parse : instance → value → heap → result value * heap;
  set_field : instance → string → value → heap → result unit
}.

(** [Slack.postMessage], awaited; its value is not used. *)
Variable postMessage : value → heap → result unit * heap.

Definition post (message : value) : M unit := λ s,
  let '(r, h) := postMessage message s.(store) in
  (r, State h (lastParser s) (trace s ++
        [Post message (match r with Ok _ => None | Raise e => Some e end)])).

(** [JSON.parse] raises on a text that is not JSON; [JSON.stringify]
    raises on a value it cannot serialise (a cyclic structure). *)
Variable JSON_parse : string → heap → result value * heap.
Variable JSON_stringify : value → heap → result value.

(** What [processEvent] resolves to: the parser instance with the two
    properties set on it ([parser.slackMessage], [parser.name]), [null]
    after a truthy but empty message, [undefined] when the loop ends. *)
Inductive returned :=
| Parser (parser : instance) (slackMessage : value) (name : string)
| Null
| Undefined.

(** Lines 50-69: one turn of the loop over [this.parsers].  [Some v] is
    [return v]; [None] falls through to the next parser. *)
Definition try_parser (parserName : string) (P : classifier) (event : value)
  : M (option returned) :=
  set_lastParser (Some parserName);;
  try_catch
    (emit (New parserName);;
     parser ← call (construct P);
     emit (Parse parserName event);;
     message ← call (parse P parser event);
     if truthy message then
       empty ← look (lodash.isEmpty message);
       if is_true message || empty then mret (Some Null)
       else
         read (set_field P parser "slackMessage" message);;
         read (set_field P parser "name" (VStr parserName));;
         mret (Some (Parser parser message parserName))
     else mret None)
    (λ e,
     console_error
       [AVal (VStr ("Error parsing event [parser:" +:+ parserName +:+ "]:")); AExn e];;
     mret None).

(** Lines 49-70: the loop, from the parsers still to try; the function
    ends without a [return] when none is left. *)
Fixpoint processEvent_loop (parsers : list (string * classifier)) (event : value)
  : M returned :=
  match parsers with
  | [] => mret Undefined
  | (parserName, P) :: rest =>
      r ← try_parser parserName P event;
      match r with
      | Some v => mret v
      | None => processEvent_loop rest event
      end
  end.

(** Lines 47-71.  [parsers] pairs [this.parserNames[i]] with
    [this.parsers[i]], in the order of the arrays. *)
Definition processEvent (parsers : list (string * classifier)) (event : value)
  : M returned :=
  h ← get_store;
  emit (Enter event h);;
  processEvent_loop parsers event.

(** [if (handler.lastParser)]: [null] and the empty string are falsy. *)
Definition lastParser_truthy (p : option string) : bool :=
  match p with Some name => negb (String.eqb name "") | None => false end.

(** [`${handler.lastParser}`] *)
Definition lastParser_text (p : option string) : string :=
  match p with Some name => name | None => "null" end.

(** [handler.parserName] (line 127): the constructor (lines 30-39) gives a
    [LambdaHandler] the properties [parsers], [parserNames] and
    [lastParser]; it has no property [parserName], the read is
    [undefined]. *)
Definition handler_parserName : value := VUndefined.

(** Lines 101-103: [_.assign({}, event, { Records: [ event.Records[i] ] })].
    The arguments are evaluated left to right. *)
Definition single_record_event (event : value) (i : nat) : M value :=
  target ← alloc (CObj ∅);
  records ← read (get_prop event "Records");
  record ← read (get_index records i);
  single ← alloc (CArr [record]);
  source ← alloc (CObj {["Records" := single]});
  lodash.assign target event source.

(** Lines 106-116: what is done with the result for record [i]. *)
Definition handle_record_result (i : nat) (parser : returned) : M unit :=
  match parser with
  | Parser _ message name =>
      text ← read (JSON_stringify message);
      console_log
        [AVal (VStr ("Sending Slack message from SNS-Parser[" +:+ name +:+ "]:"));
         AVal text];;
      post message
  | _ =>
      last ← get_lastParser;
      if lastParser_truthy last then
        console_error
          [AVal (VStr ("Parser force-ignoring SNS event[" +:+ pretty i +:+ "]: "
                       +:+ lastParser_text last))]
      else
        console_log [AVal (VStr ("No parser matched SNS event[" +:+ pretty i +:+ "]"))]
  end.

(** Lines 100-116: the body of the loop for the key [i]. *)
Definition handle_record (parsers : list (string * classifier)) (event : value)
    (i : nat) : M unit :=
  singleRecordEvent ← single_record_event event i;
  parser ← processEvent parsers singleRecordEvent;
  handle_record_result i parser.

(** Lines 99-117: [for (const i in event.Records)], for the keys still to
    visit; [enumerated] is the array the loop runs over. *)
Fixpoint for_in_Records (keys : list nat) (enumerated : value)
    (parsers : list (string * classifier)) (event : value) : M unit :=
  match keys with
  | [] => mret tt
  | i :: keys' =>
      present ← look (has_index enumerated i);
      (if present : bool then handle_record parsers event i else mret tt);;
      for_in_Records keys' enumerated parsers event
  end.

(** Lines 121-131: what is done with the result for a single event. *)
Definition handle_result (parser : returned) : M unit :=
  match parser with
  | Parser _ message name =>
      text ← read (JSON_stringify message);
      console_log
        [AVal (VStr ("Sending Slack message from Parser[" +:+ name +:+ "]:"));
         AVal text];;
      post message
  | _ =>
      last ← get_lastParser;
      if lastParser_truthy last then
        console_error
          [AVal (VStr ("Parser[" +:+ String_of handler_parserName
                       +:+ "] is force-ignoring event"))]
      else
        console_log [AVal (VStr "No parser matched event")]
  end.

(** Lines 85-92: a string is decoded, and kept as it is when it is not
    JSON. *)
Definition ingest (event : value) : M value :=
  if lodash.isString event then
    try_catch
      (call (JSON_parse (String_of event)))
      (λ err,
       console_error
         [AVal (VStr ("Error parsing event JSON (continuing...): " +:+ String_of event))];;
       mret event)
  else mret event.

(** Lines 94-139.  [new LambdaHandler()] starts with [lastParser = null].
    The reads of [event.Records] in the condition and in the loop header
    have no call between them and see one store. *)
Definition dispatch (parsers : list (string * classifier)) (event : value) : M unit :=
  try_catch
    (set_lastParser None;;
     records ← read (get_prop event "Records");
     is_array ← look (lodash.isArray records);
     len ← (if is_array : bool then read (get_prop records "length") else mret VUndefined);
     (if is_array && gt_1 len then
        keys ← look (for_in_keys records);
        for_in_Records keys records parsers event
      else
        parser ← processEvent parsers event;
        handle_result parser);;
     emit (Callback None))
    (λ e,
     console_log [AVal (VStr "ERROR:"); AExn e];;
     emit (Callback (Some e))).

(** Lines 82-83. *)
Definition prologue (event context : value) : M unit :=
  set_prop context "callbackWaitsForEmptyEventLoop" (VBool false);;
  text ← read (JSON_stringify event);
  console_log [AVal (VStr "Incoming Message:"); AVal text].

(** Lines 81-140.  An error raised by the first two statements is outside
    the [try] and leaves the handler without a call of [callback]. *)
Definition handler (parsers : list (string * classifier)) (event context : value)
  : M unit :=
  prologue event context;;
  event ← ingest event;
  dispatch parsers event.

(** Lines 62-63: the two assignments, in the store [h]. *)
Definition set_fields (P : classifier) (parser : instance) (message : value)
    (name : string) (h : heap) : result unit :=
  match set_field P parser "slackMessage" message h with
  | Ok _ => set_field P parser "name" (VStr name) h
  | Raise e => Raise e
  end.

(** What a parser does with an event in a given store, in the terms of
    the dispatch: it declines (a falsy value) or faults (it raises, or its
    instance refuses the assignments of lines 62-63), or it gives a value
    that ends the loop.  [pass_over pre event h] is the store left when
    every parser of [pre], run in turn from [h], declines or faults. *)
Fixpoint pass_over (pre : list (string * classifier)) (event : value) (h : heap)
  : option heap :=
  match pre with
  | [] => Some h
  | (name, P) :: rest =>
      match construct P h with
      | (Raise _, h1) => pass_over rest event h1
      | (Ok parser, h1) =>
          match parse P parser event h1 with
          | (Raise _, h2) => pass_over rest event h2
          | (Ok message, h2) =>
              if truthy message then
                if is_true message || lodash.isEmpty message h2 then None
                else
                  match set_fields P parser message name h2 with
                  | Ok _ => None
                  | Raise _ => pass_over rest event h2
                  end
              else pass_over rest event h2
          end
      end
  end.

(** The parser a dispatch was last at after it has gone through [pre]:
    what [this.lastParser] then holds. *)
Definition last_tried (pre : list (string * classifier)) (before : option string)
  : option string :=
  match last pre with
  | Some (name, _) => Some name
  | None => before
  end.

(** A collaborator that never writes the cell [l] of a store in which it
    is allocated (it may allocate and write other cells). *)
Definition keeps_cell {A} (l : loc) (f : heap → result A * heap) : Prop :=
  ∀ h, is_Some (h !! l) → (f h).2 !! l = h !! l.

Definition parser_keeps (l : loc) (P : classifier) : Prop :=
  keeps_cell l (construct P) ∧ ∀ parser event, keeps_cell l (parse P parser event).

(** Two runs of a collaborator answer alike: both raise, or both return,
    and what they return is the same. *)
Definition alike {A} (same : A → heap → A → heap → Prop)
    (a a' : result A * heap) : Prop :=
  match a.1, a'.1 with
  | Ok x, Ok x' => same x a.2 x' a'.2
  | Raise _, Raise _ => True
  | _, _ => False
  end.

(** A parser without side effects and deterministic on [event], from the
    store [h0] on.  It writes no object there is: the store it leaves is
    the store it finds, with the objects it has created.  And what it
    answers depends on the event and not on what else the store holds: in
    a store and in an extension of that store, the constructor gives the
    same instance or raises in both, [parse] returns the same value or
    raises in both, and the instance takes or refuses the same writes. *)
Definition repeatable (h0 : heap) (event : value) (P : classifier) : Prop :=
  (∀ h, h0 ⊆ h → h ⊆ (construct P h).2)
  ∧ (∀ parser h, h0 ⊆ h → h ⊆ (parse P parser event h).2)
  ∧ (∀ h h', h0 ⊆ h → h ⊆ h' →
       alike (λ p _ p' _, p = p') (construct P h) (construct P h'))
  ∧ (∀ parser h h', h0 ⊆ h → h ⊆ h' →
       alike same_value (parse P parser event h) (parse P parser event h'))
  ∧ (∀ parser k V h V' h', h0 ⊆ h → h ⊆ h' → same_value V h V' h' →
       raises (set_field P parser k V h) = raises (set_field P parser k V' h')).

(** The same result of [processEvent], in two stores: the same parser
    with the same message and name, or [null] twice, or [undefined]
    twice. *)
Definition same_result (r : returned) (h : heap) (r' : returned) (h' : heap) : Prop :=
  match r, r' with
  | Parser parser V name, Parser parser' V' name' =>
      parser = parser' ∧ name = name' ∧ same_value V h V' h'
  | Null, Null => True
  | Undefined, Undefined => True
  | _, _ => False
  end.

(** None of the collaborators called by a dispatch writes the cell [l]. *)
Definition collaborators_keep (l : loc) (parsers : list (string * classifier)) : Prop :=
  Forall (λ np, parser_keeps l np.2) parsers ∧ ∀ message, keeps_cell l (postMessage message).

(** [run] is a dispatch on a single-record copy of the object with the
    fields [m]: a reference to an object with the fields of [m], except
    that [Records] is an array of the one [record]. *)
Definition is_single_record_copy (m : gmap string value) (record : value)
    (run : value * heap) : Prop :=
  ∃ d a, run.1 = VRef d
         ∧ run.2 !! d = Some (CObj (<["Records" := VRef a]> m))
         ∧ run.2 !! a = Some (CArr [record]).

(** Lines 106-116: what the handling of the result [r] of a record, in
    the store [h], adds to the trace, and the error it ends with.  A
    message is serialised for the log and given to the sink, once: the
    handling fails with the error of [JSON.stringify] (the sink is then
    not called) or with the error of the sink.  For [null] and
    [undefined] there is a diagnostic, and no failure. *)
Definition handled (r : returned) (h : heap) (handling : list obs)
    (failure : option exn) : Prop :=
  match r with
  | Parser _ V name =>
      match JSON_stringify V h with
      | Ok text =>
          handling =
            [Console Log
               [AVal (VStr ("Sending Slack message from SNS-Parser[" +:+ name +:+ "]:"));
                AVal text];
             Post V failure]
          ∧ ∃ h', postMessage V h =
                    (match failure with None => Ok tt | Some e => Raise e end, h')
      | Raise e => handling = [] ∧ failure = Some e
      end
  | _ => failure = None ∧ ∃ lvl text, handling = [Console lvl [AVal (VStr text)]]
  end.

(** The part of a trace that belongs to one record of a fan-out, with the
    error it ends with: the dispatch on a single-record copy, what that
    run of [processEvent] adds (no other dispatch, no call of the sink, no
    callback), then the handling of its result. *)
Definition record_segment (parsers : list (string * classifier))
    (m : gmap string value) (record : value) (segment : list obs * option exn) : Prop :=
  ∃ run t r h1 handling,
    segment.1 = Enter run.1 run.2 :: t ++ handling
    ∧ is_single_record_copy m record run
    ∧ (∀ lp t0, ∃ lp1,
         processEvent parsers run.1 (State run.2 lp t0) =
           (Ok r, State h1 lp1 (t0 ++ Enter run.1 run.2 :: t)))
    ∧ entered t = [] ∧ posted t = [] ∧ callbacks t = []
    ∧ handled r h1 handling segment.2.

(** The elements of [event.Records] when it is an array. *)
Definition records_of (event : value) (h : heap) : option (list value) :=
  match get_prop event "Records" h with
  | Ok (VRef lr) =>
      match h !! lr with
      | Some (CArr recs) => Some recs
      | _ => None
      end
  | _ => None
  end.

(** The error a parser faults with, and the store it leaves. *)
Definition fault_of (P : classifier) (event : value) (h : heap) : option (exn * heap) :=
  match construct P h with
  | (Raise e, h1) => Some (e, h1)
  | (Ok parser, h1) =>
      match parse P parser event h1 with
      | (Raise e, h2) => Some (e, h2)
      | (Ok _, _) => None
      end
  end.

(** What a run of the loop from the store [h] is made of: it always
    returns, it depends on the store alone, it only appends to the trace,
    and what it appends has no entry into [processEvent], no delivery and
    no callback. *)
Definition loop_shape_at (parsers : list (string * classifier)) (event : value)
    (h : heap) : Prop :=
  ∃ r h' t tried,
    (∀ lp t0, processEvent_loop parsers event (State h lp t0) =
              (Ok r, State h' (from_option Some lp tried) (t0 ++ t)))
    ∧ entered t = [] ∧ posted t = [] ∧ callbacks t = []
    ∧ (∀ l, is_Some (h !! l) → Forall (λ np, parser_keeps l np.2) parsers →
            h' !! l = h !! l).

(** [V], in the store [h'], is a message that the [parse] of a parser of
    the chain has returned. *)
Definition parsed (parsers : list (string * classifier)) (V : value) (h' : heap) : Prop :=
  ∃ name P parser event h, (name, P) ∈ parsers ∧ parse P parser event h = (Ok V, h').

(** [JSON.stringify] raises [e] on a message of the chain. *)
Definition stringify_fault (parsers : list (string * classifier)) (e : exn) : Prop :=
  ∃ V h, parsed parsers V h ∧ JSON_stringify V h = Raise e.

(** [JSON.stringify] raises on no message of the chain. *)
Definition serialisable (parsers : list (string * classifier)) : Prop :=
  ∀ V h, parsed parsers V h → ∃ text, JSON_stringify V h = Ok text.

(** How a delivery ends: without an error of the sink, or with the error
    raised by the one call of the sink, or with the error raised by
    [JSON.stringify] on the message before the sink is called. *)
Definition delivery_outcome (parsers : list (string * classifier))
    (r : result unit) (t : list obs) : Prop :=
  match r with
  | Ok _ => sink_errors t = []
  | Raise e =>
      sink_errors t = [e]
      ∨ (sink_errors t = [] ∧ stringify_fault parsers e)
  end.

(** What the value [r] returned from the store [h] with [lastParser = lp]
    tells, the run ending in [s']: which parsers were passed over, and
    what the parser that ended the loop did. *)
Definition result_reads (parsers : list (string * classifier)) (event : value)
    (h : heap) (lp : option string) (r : returned) (s' : state) : Prop :=
  match r with
  | Parser parser V name =>
      ∃ pre P post h1 h2,
        parsers = pre ++ (name, P) :: post
        ∧ pass_over pre event h = Some h1
        ∧ construct P h1 = (Ok parser, h2)
        ∧ parse P parser event h2 = (Ok V, store s')
        ∧ is_true V = false
        ∧ lodash.isEmpty V (store s') = false
        ∧ set_fields P parser V name (store s') = Ok tt
        ∧ lastParser s' = Some name
  | Null =>
      ∃ pre name P post h1 parser h2 V,
        parsers = pre ++ (name, P) :: post
        ∧ pass_over pre event h = Some h1
        ∧ construct P h1 = (Ok parser, h2)
        ∧ parse P parser event h2 = (Ok V, store s')
        ∧ truthy V = true
        ∧ is_true V || lodash.isEmpty V (store s') = true
        ∧ lastParser s' = Some name
  | Undefined =>
      pass_over parsers event h = Some (store s')
      ∧ lastParser s' = last_tried parsers lp
  end.

(** When a read of the handler itself raises: [event.Records] (line 97)
    on an event that is [null] or [undefined]; and [event.Records[i]]
    (line 102) in the fan-out over an event object that a collaborator has
    written in the meantime. *)
Definition read_fault (parsers : list (string * classifier)) (event : value)
    (h : heap) : Prop :=
  event = VNull ∨ event = VUndefined
  ∨ ∃ le m lr recs,
      event = VRef le ∧ h !! le = Some (CObj m) ∧ m !! "Records" = Some (VRef lr)
      ∧ h !! lr = Some (CArr recs) ∧ 1 < length recs
      ∧ ¬ collaborators_keep le parsers.

(** How a run of the [try] block on [event], from the store [h], ends:
    without an error of the sink; or with the error of the one call of
    the sink that raised; or, the sink having raised nothing, with the
    error of [JSON.stringify] on a message of the chain, or with the
    TypeError of a read of the handler itself. *)
Definition run_outcome (parsers : list (string * classifier)) (event : value)
    (h : heap) (r : result unit) (t : list obs) : Prop :=
  match r with
  | Ok _ => sink_errors t = []
  | Raise e =>
      sink_errors t = [e]
      ∨ (sink_errors t = [] ∧ stringify_fault parsers e)
      ∨ (sink_errors t = [] ∧ e = TypeError ∧ read_fault parsers event h)
  end.

End LambdaHandler.

Arguments Classifier {instance} construct parse set_field.
Arguments construct {instance} c h.
Arguments parse {instance} c parser event h.
Arguments set_field {instance} c parser k v h.
Arguments set_fields {instance} P parser message name h.
Arguments Parser {instance} parser slackMessage name.
Arguments Null {instance}.
Arguments Undefined {instance}.
Arguments try_parser {instance} parserName P event.
Arguments processEvent_loop {instance} parsers event.
Arguments processEvent {instance} parsers event.
Arguments handle_record_result {instance} postMessage JSON_stringify i parser.
Arguments handle_record {instance} postMessage JSON_stringify parsers event i.
Arguments handle_result {instance} postMessage JSON_stringify parser.
Arguments for_in_Records {instance} postMessage JSON_stringify keys enumerated parsers event.
Arguments dispatch {instance} postMessage JSON_stringify parsers event.
Arguments handler {instance} postMessage JSON_parse JSON_stringify parsers event context.
Arguments pass_over {instance} pre event h.
Arguments last_tried {instance} pre before.
Arguments keeps_cell {A} l f.
Arguments parser_keeps {instance} l P.
Arguments repeatable {instance} h0 event P.
Arguments same_result {instance} r h r' h'.
Arguments collaborators_keep {instance} postMessage l parsers.
Arguments fault_of {instance} P event h.
Arguments loop_shape_at {instance} parsers event h.
Arguments result_reads {instance} parsers event h lp r s'.
Arguments parsed {instance} parsers V h'.
Arguments handled {instance} postMessage JSON_stringify r h handling failure.
Arguments record_segment {instance} postMessage JSON_stringify parsers m record segment.
Arguments stringify_fault {instance} JSON_stringify parsers e.
Arguments serialisable {instance} JSON_stringify parsers.
Arguments delivery_outcome {instance} JSON_stringify parsers r t.
Arguments read_fault {instance} postMessage parsers event h.
Arguments run_outcome {instance} postMessage JSON_stringify parsers event h r t.

(** ** The constructor *)

Section Constructor.

Context {instance : Type}.

(** An array is a list of slots; a hole is [None].  [new Array(n)] has
    [n] holes. *)
Definition new_Array {A} (n : nat) : list (option A) := replicate n None.

(** [a[i] = x]: a slot in range is written; out of range the array
    grows, with holes below [i]. *)
Definition array_set {A} (i : nat) (x : A) (a : list (option A)) : list (option A) :=
  if decide (i < length a) then <[i := Some x]> a
  else a ++ replicate (i - length a) None ++ [Some x].

(** [a[i]]: a hole, and an index out of range, read as [undefined]. *)
Definition array_get {A} (a : list (option A)) (i : nat) : option A :=
  mjoin (a !! i).

(** [_.each(collection, (o, i) => ...)] with an iteratee that returns
    nothing: every element in turn, with its index. *)
Fixpoint each_from {A B} (i : nat) (collection : list A)
    (iteratee : A → nat → B → B) (acc : B) : B :=
  match collection with
  | [] => acc
  | o :: rest => each_from (S i) rest iteratee (iteratee o i acc)
  end.

Definition each {A B} (collection : list A) (iteratee : A → nat → B → B) (acc : B) : B :=
  each_from 0 collection iteratee acc.

(** The fields of a [LambdaHandler]. *)
Record LambdaHandler := {
  this_parsers : list (option (classifier instance));
  this_parserNames : list (option string);
  this_lastParser : option string
}.

(** Lines 30-39. *)
Definition constructor (parsers : list (string * classifier instance)) : LambdaHandler :=
  let filled :=
    each parsers
      (λ o i this, (array_set i o.1 this.1, array_set i o.2 this.2))
      (new_Array (length parsers), new_Array (length parsers)) in
  {| this_parserNames := filled.1; this_parsers := filled.2; this_lastParser := None |}.

(** What the loop of [processEvent] goes through (lines 49-50): for each
    key [i] of [this.parsers], in ascending order and without the holes,
    the name [this.parserNames[i]] ([None] when it is [undefined]) and
    the class [this.parsers[i]]. *)
Definition descriptors (this : LambdaHandler) : list (option string * classifier instance) :=
  omap (λ i, P ← array_get (this_parsers this) i;
             Some (array_get (this_parserNames this) i, P))
       (seq 0 (length (this_parsers this))).

End Constructor.

Arguments LambdaHandler instance : clear implicits.


(** * Sample collaborators

    Parsers whose instances carry no data, a sink, stand-ins for the JSON
    built-ins, and a store with an SNS event of two records. *)

(** The instances of the sample parsers are ordinary objects, which take
    every write; those of [sealed] are frozen. *)
Definition writable : unit → string → value → heap → result unit :=
  λ _ _ _ _, Ok tt.

Definition declining : classifier unit :=
  Classifier (λ h, (Ok tt, h)) (λ _ _ h, (Ok VUndefined, h)) writable.

Definition answering (message : value) : classifier unit :=
  Classifier (λ h, (Ok tt, h)) (λ _ _ h, (Ok message, h)) writable.

(** A parser that returns a new object [{ text }]. *)
Definition composing (text : string) : classifier unit :=
  Classifier (λ h, (Ok tt, h))
    (λ _ _ h, let l := fresh (dom h) in
              (Ok (VRef l), <[l := CObj {["text" := VStr text]}]> h))
    writable.

Definition raising (e : exn) : classifier unit :=
  Classifier (λ h, (Ok tt, h)) (λ _ _ h, (Raise e, h)) writable.

(** A parser for the events of one source: it reads [event.EventSource]
    and returns a new object [{ text }] for an event of its source. *)
Definition recognising (source text : string) : classifier unit :=
  Classifier (λ h, (Ok tt, h))
    (λ _ event h,
       match get_prop event "EventSource" h with
       | Ok (VStr s) =>
           if String.eqb s source then
             let l := fresh (dom h) in
             (Ok (VRef l), <[l := CObj {["text" := VStr text]}]> h)
           else (Ok VUndefined, h)
       | Ok _ => (Ok VUndefined, h)
       | Raise e => (Raise e, h)
       end)
    writable.

(** A parser that answers, with instances that are frozen. *)
Definition sealed (message : value) : classifier unit :=
  Classifier (λ h, (Ok tt, h)) (λ _ _ h, (Ok message, h))
    (λ _ _ _ _, Raise TypeError).

Definition delivering : value → heap → result unit * heap :=
  λ _ h, (Ok tt, h).

Definition undeliverable (e : exn) : value → heap → result unit * heap :=
  λ _ h, (Raise e, h).

(** Decodes the text [null] and rejects every other text. *)
Definition sample_parse : string → heap → result value * heap :=
  λ text h,
    if String.eqb text "null" then (Ok VNull, h)
    else (Raise (Thrown (VStr "SyntaxError")), h).

Definition sample_stringify : value → heap → result value :=
  λ v _, Ok (VStr (String_of v)).

(** A [JSON.stringify] that raises on every object, as the built-in one
    does on an object that contains itself. *)
Definition rejecting_stringify (e : exn) : value → heap → result value :=
  λ v _, match v with VRef _ => Raise e | _ => Ok (VStr (String_of v)) end.

Definition empty_event : state := State {[ 1%positive := CObj ∅ ]} None [].

(** 1 is the event, 2 its [Records], 3 and 4 the records, 5 the Lambda
    context, 6 an empty object. *)
Definition sns_event : state :=
  State
    (<[1%positive := CObj {["Records" := VRef 2%positive; "Type" := VStr "Notification"]}]>
       (<[2%positive := CArr [VRef 3%positive; VRef 4%positive]]>
          (<[3%positive := CObj {["EventSource" := VStr "aws:sns"]}]>
             (<[4%positive := CObj {["EventSource" := VStr "aws:ses"]}]>
                (<[5%positive := CObj ∅]>
                   {[ 6%positive := CObj ∅ ]})))))
    None [].

(** The state after the first two statements of the handler, called with
    the context object 5. *)
Definition started (event : value) : state :=
  (prologue sample_stringify event (VRef 5%positive) sns_event).2.

(** * Properties *)

Section Properties.

Context {instance : Type}.
Variable postMessage : value → heap → result unit * heap.
Variable JSON_parse : string → heap → result value * heap.
Variable JSON_stringify : value → heap → result value.

Implicit Types (parsers pre post : list (string * classifier instance)).
Implicit Types (P Q : classifier instance) (event message : value).
Implicit Types (s : state) (h : heap) (t : list obs).

Local Abbreviation handled := (handled postMessage JSON_stringify).
Local Abbreviation record_segment := (record_segment postMessage JSON_stringify).
Local Abbreviation stringify_fault := (stringify_fault JSON_stringify).
Local Abbreviation serialisable := (serialisable JSON_stringify).
Local Abbreviation delivery_outcome := (delivery_outcome JSON_stringify).
Local Abbreviation read_fault := (read_fault postMessage).
Local Abbreviation run_outcome := (run_outcome postMessage JSON_stringify).

Ltac unfold_M :=
  unfold mbind, M_bind, mret, M_ret, try_catch, emit, console_log,
    console_error, get_store, get_lastParser, set_lastParser, call, read, look,
    alloc, post in *.

(** ** One turn of the loop *)

Lemma try_parser_run name P event s :
  try_parser name P event s =
  match construct P (store s) with
  | (Raise e, h1) =>
      (Ok None, State h1 (Some name) (trace s ++ [New name; parse_error name e]))
  | (Ok parser, h1) =>
      match parse P parser event h1 with
      | (Raise e, h2) =>
          (Ok None,
           State h2 (Some name) (trace s ++ [New name; Parse name event; parse_error name e]))
      | (Ok message, h2) =>
          if truthy message then
            if is_true message || lodash.isEmpty message h2 then
              (Ok (Some Null),
               State h2 (Some name) (trace s ++ [New name; Parse name event]))
            else
              match set_fields P parser message name h2 with
              | Ok _ =>
                  (Ok (Some (Parser parser message name)),
                   State h2 (Some name) (trace s ++ [New name; Parse name event]))
              | Raise e =>
                  (Ok None,
                   State h2 (Some name)
                     (trace s ++ [New name; Parse name event; parse_error name e]))
              end
          else
            (Ok None, State h2 (Some name) (trace s ++ [New name; Parse name event]))
      end
  end.
Proof.
  unfold try_parser, parse_error, set_fields. unfold_M. simpl.
  destruct (construct P (store s)) as [[parser|e] h1]; simpl;
    [|by rewrite <- app_assoc].
  destruct (parse P parser event h1) as [[message|e] h2]; simpl;
    [|by rewrite <- !app_assoc].
  rewrite <- !app_assoc. simpl.
  destruct (truthy message); [|done].
  cbn [store]. destruct (is_true message || lodash.isEmpty message h2); [done|].
  cbn [store].
  destruct (set_field P parser "slackMessage" message h2) as [[]|e];
    [|cbn; by rewrite <- !app_assoc].
  destruct (set_field P parser "name" (VStr name) h2) as [[]|e];
    [done|cbn; by rewrite <- !app_assoc].
Qed.

Lemma not_empty_truthy message h :
  lodash.isEmpty message h = false → truthy message = true.
Proof.
  destruct message; simpl; try done. by intros ->.
Qed.

(** ** The loop *)

Lemma loop_cons name P rest event s :
  processEvent_loop ((name, P) :: rest) event s =
  match try_parser name P event s with
  | (Ok (Some v), s') => (Ok v, s')
  | (Ok None, s') => processEvent_loop rest event s'
  | (Raise e, s') => (Raise e, s')
  end.
Proof.
  simpl. unfold mbind, M_bind.
  destruct (try_parser name P event s) as [[[v|]|e] s']; done.
Qed.

Lemma constructed_app t1 t2 : constructed (t1 ++ t2) = constructed t1 ++ constructed t2.
Proof. apply omap_app. Qed.
Lemma entered_app t1 t2 : entered (t1 ++ t2) = entered t1 ++ entered t2.
Proof. apply omap_app. Qed.
Lemma posted_app t1 t2 : posted (t1 ++ t2) = posted t1 ++ posted t2.
Proof. apply omap_app. Qed.

Lemma callbacks_app t1 t2 : callbacks (t1 ++ t2) = callbacks t1 ++ callbacks t2.
Proof. apply omap_app. Qed.

Lemma last_tried_cons name P pre before :
  last_tried ((name, P) :: pre) before = last_tried pre (Some name).
Proof.
  unfold last_tried. rewrite last_cons. by destruct (last pre) as [[? ?]|].
Qed.

Lemma entered_app_elem run t1 t2 :
  run ∈ entered (t1 ++ t2) → run ∈ entered t1 ∨ run ∈ entered t2.
Proof. rewrite entered_app. apply elem_of_app. Qed.

(** The parsers that decline or fault are tried in turn and passed over;
    the loop goes on with what follows them. *)
Lemma loop_pass_over pre event h1 : ∀ s,
  pass_over pre event (store s) = Some h1 →
  ∃ t, constructed t = pre.*1 ∧ entered t = [] ∧ posted t = [] ∧ callbacks t = [] ∧
       ∀ rest, processEvent_loop (pre ++ rest) event s =
               processEvent_loop rest event
                 (State h1 (last_tried pre (lastParser s)) (trace s ++ t)).
Proof.
  induction pre as [|[name P] pre IH]; intros s Hpass.
  - simpl in Hpass. injection Hpass as <-. exists []. repeat split.
    intros rest. simpl. rewrite app_nil_r. by destruct s.
  - simpl in Hpass.
    assert (∃ s', try_parser name P event s = (Ok None, s')
                  ∧ pass_over pre event (store s') = Some h1
                  ∧ lastParser s' = Some name
                  ∧ ∃ t0, trace s' = trace s ++ t0 ∧ constructed t0 = [name]
                          ∧ entered t0 = [] ∧ posted t0 = [] ∧ callbacks t0 = [])
      as (s' & Htry & Hpass' & Hlast & t0 & Ht0 & Hc0 & He0 & Hp0 & Hk0).
    { rewrite try_parser_run.
      destruct (construct P (store s)) as [[parser|e] h2].
      - destruct (parse P parser event h2) as [[message|e] h3].
        + destruct (truthy message).
          * destruct (is_true message || lodash.isEmpty message h3); [done|].
            destruct (set_fields P parser message name h3) as [[]|e]; [done|].
            eexists. split; [done|]. simpl. repeat split; [done|]. by eexists.
          * eexists. split; [done|]. simpl. repeat split; [done|]. by eexists.
        + eexists. split; [done|]. simpl. repeat split; [done|]. by eexists.
      - eexists. split; [done|]. simpl. repeat split; [done|]. by eexists. }
    destruct (IH s' Hpass') as (t & Hc & He & Hp & Hk & Hrun).
    exists (t0 ++ t). rewrite constructed_app, entered_app, posted_app, callbacks_app.
    rewrite Hc0, Hc, He0, He, Hp0, Hp, Hk0, Hk. repeat split.
    intros rest. rewrite <- app_comm_cons, loop_cons, Htry, Hrun.
    by rewrite Ht0, Hlast, app_assoc, last_tried_cons.
Qed.

Lemma loop_shape_next name P rest event h h1 t1 :
  (∀ lp t0, try_parser name P event (State h lp t0) =
            (Ok None, State h1 (Some name) (t0 ++ t1))) →
  entered t1 = [] → posted t1 = [] → callbacks t1 = [] →
  (∀ l, is_Some (h !! l) → parser_keeps l P → h1 !! l = h !! l) →
  loop_shape_at rest event h1 →
  loop_shape_at ((name, P) :: rest) event h.
Proof.
  intros Htry He1 Hp1 Hc1 Hk (r & h' & t & tried & Hrun & He & Hp & Hc & Hf).
  exists r, h', (t1 ++ t), (Some (default name tried)).
  rewrite entered_app, posted_app, callbacks_app, He, Hp, Hc, He1, Hp1, Hc1.
  split_and!; [|done|done|done|].
  - intros lp t0. rewrite loop_cons, Htry, Hrun, <- app_assoc. by destruct tried.
  - intros l Hl Hkeep. inversion Hkeep; subst.
    rewrite Hf; [by apply Hk|by rewrite Hk|done].
Qed.

Lemma loop_shape_stop name P rest event h h1 t1 v :
  (∀ lp t0, try_parser name P event (State h lp t0) =
            (Ok (Some v), State h1 (Some name) (t0 ++ t1))) →
  entered t1 = [] → posted t1 = [] → callbacks t1 = [] →
  (∀ l, is_Some (h !! l) → parser_keeps l P → h1 !! l = h !! l) →
  loop_shape_at ((name, P) :: rest) event h.
Proof.
  intros Htry He1 Hp1 Hc1 Hk.
  exists v, h1, t1, (Some name). split_and!; [|done|done|done|].
  - intros lp t0. by rewrite loop_cons, Htry.
  - intros l Hl Hkeep. inversion Hkeep; subst. by apply Hk.
Qed.

Lemma loop_shape parsers event : ∀ h, loop_shape_at parsers event h.
Proof.
  induction parsers as [|[name P] rest IH]; intros h.
  - exists Undefined, h, [], None. split_and!; try done.
    intros lp t0. simpl. by rewrite app_nil_r.
  - destruct (construct P h) as [[parser|e] h1] eqn:Hnew.
    + destruct (parse P parser event h1) as [[message|e] h2] eqn:Hparse.
      * assert (Hk : ∀ l, is_Some (h !! l) → parser_keeps l P → h2 !! l = h !! l).
        { intros l Hl [Hc Hp]. specialize (Hc h Hl). rewrite Hnew in Hc. simpl in Hc.
          specialize (Hp parser event h1). rewrite Hparse in Hp. simpl in Hp.
          rewrite Hp; [done|by rewrite Hc]. }
        destruct (truthy message) eqn:Htruthy.
        -- destruct (is_true message || lodash.isEmpty message h2) eqn:Hempty.
           ++ eapply (loop_shape_stop _ _ _ _ _ h2 [New name; Parse name event]);
                [|done..].
              intros lp t0. rewrite try_parser_run. simpl.
              by rewrite Hnew, Hparse, Htruthy, Hempty.
           ++ destruct (set_fields P parser message name h2) as [[]|e] eqn:Hset.
              ** eapply (loop_shape_stop _ _ _ _ _ h2 [New name; Parse name event]);
                   [|done..].
                 intros lp t0. rewrite try_parser_run. simpl.
                 by rewrite Hnew, Hparse, Htruthy, Hempty, Hset.
              ** eapply (loop_shape_next _ _ _ _ _ h2
                           [New name; Parse name event; parse_error name e]);
                   [|done..].
                 intros lp t0. rewrite try_parser_run. simpl.
                 by rewrite Hnew, Hparse, Htruthy, Hempty, Hset.
        -- eapply (loop_shape_next _ _ _ _ _ h2 [New name; Parse name event]);
             [|done..].
           intros lp t0. rewrite try_parser_run. simpl.
           by rewrite Hnew, Hparse, Htruthy.
      * eapply (loop_shape_next _ _ _ _ _ h2
                  [New name; Parse name event; parse_error name e]); [|done..| |done].
        -- intros lp t0. rewrite try_parser_run. simpl. by rewrite Hnew, Hparse.
        -- intros l Hl [Hc Hp]. specialize (Hc h Hl). rewrite Hnew in Hc. simpl in Hc.
           specialize (Hp parser event h1). rewrite Hparse in Hp. simpl in Hp.
           rewrite Hp; [done|by rewrite Hc].
    + eapply (loop_shape_next _ _ _ _ _ h1 [New name; parse_error name e]);
        [|done..| |done].
      * intros lp t0. rewrite try_parser_run. simpl. by rewrite Hnew.
      * intros l Hl [Hc Hp]. specialize (Hc h Hl). by rewrite Hnew in Hc.
Qed.

(** ** First match *)

(** C1 — first-match forwarding (amended).  When every parser before
    position k declines or faults on the event, parser k returns a value V
    that is not [true] and for which [_.isEmpty] is false (a string that
    is not empty, an object with a property, an array with an element: a
    number is empty for [_.isEmpty]), and the instance takes the two
    assignments of lines 62-63, [processEvent] returns parser k carrying
    exactly V as [slackMessage] and the name of parser k as [name]; the
    parsers instantiated are those of positions 0..k, in order, and the
    run is the same whatever parsers follow k: none of them is invoked. *)
Theorem first_match_is_forwarded pre name P event s h1 parser h2 V h3 :
  pass_over pre event (store s) = Some h1 →
  construct P h1 = (Ok parser, h2) →
  parse P parser event h2 = (Ok V, h3) →
  is_true V = false →
  lodash.isEmpty V h3 = false →
  set_fields P parser V name h3 = Ok tt →
  ∃ t, constructed t = pre.*1 ++ [name] ∧
    ∀ post,
      processEvent (pre ++ (name, P) :: post) event s =
      (Ok (Parser parser V name),
       State h3 (Some name) (trace s ++ Enter event (store s) :: t)).
Proof.
  intros Hpass Hnew Hparse Htrue Hempty Hset.
  destruct (loop_pass_over pre event h1 (State (store s) (lastParser s)
              (trace s ++ [Enter event (store s)])) Hpass)
    as (t & Hc & _ & _ & _ & Hrun).
  exists (t ++ [New name; Parse name event]). split.
  - by rewrite constructed_app, Hc.
  - intros post. unfold processEvent. unfold_M. simpl in *.
    rewrite Hrun, loop_cons, try_parser_run. simpl.
    rewrite Hnew, Hparse, (not_empty_truthy _ _ Hempty), Htrue, Hempty, Hset. simpl.
    by rewrite <- !app_assoc.
Qed.

(** The same with a value that is [true] or empty: the dispatch stops at
    parser k and returns [null]; [lastParser] is the name of parser k. *)
Lemma first_empty_is_null pre name P event s h1 parser h2 V h3 :
  pass_over pre event (store s) = Some h1 →
  construct P h1 = (Ok parser, h2) →
  parse P parser event h2 = (Ok V, h3) →
  truthy V = true →
  is_true V || lodash.isEmpty V h3 = true →
  ∃ t, constructed t = pre.*1 ++ [name] ∧ posted t = [] ∧
    ∀ post,
      processEvent (pre ++ (name, P) :: post) event s =
      (Ok Null, State h3 (Some name) (trace s ++ Enter event (store s) :: t)).
Proof.
  intros Hpass Hnew Hparse Htruthy Hempty.
  destruct (loop_pass_over pre event h1 (State (store s) (lastParser s)
              (trace s ++ [Enter event (store s)])) Hpass)
    as (t & Hc & _ & Hp & _ & Hrun).
  exists (t ++ [New name; Parse name event]). split_and!.
  - by rewrite constructed_app, Hc.
  - by rewrite posted_app, Hp.
  - intros post. unfold processEvent. unfold_M. simpl in *.
    rewrite Hrun, loop_cons, try_parser_run. simpl.
    rewrite Hnew, Hparse, Htruthy, Hempty. simpl.
    by rewrite <- !app_assoc.
Qed.

(** For [_.isEmpty] a number has no elements: a parser that returns a
    number other than 0 stops the dispatch as an empty message does. *)
Lemma number_is_empty n h : lodash.isEmpty (VNum n) h = true.
Proof. done. Qed.

(** On a truthy value other than [true], [_.isEmpty] is false when the
    value is not a number and not structurally empty. *)
Lemma not_empty_reads V h :
  truthy V = true → is_true V = false →
  lodash.isEmpty V h = false ↔ (∀ n, V ≠ VNum n) ∧ structurally_empty V h = false.
Proof.
  destruct V as [| |[]|n| |text|l]; simpl; try done.
  - intros _ _. split; [done|]. intros [Hn _]. by destruct (Hn n).
  - intros Htext _. apply negb_true_iff in Htext. by rewrite Htext.
  - intros _ _. split; [by intros ->|by intros [_ ->]].
Qed.

(** When every parser declines or faults, the loop ends: the result is
    [undefined], and [lastParser] is the name of the last parser. *)
Lemma exhausted_is_undefined parsers event s h1 :
  pass_over parsers event (store s) = Some h1 →
  ∃ t, constructed t = parsers.*1 ∧ posted t = [] ∧
    processEvent parsers event s =
    (Ok Undefined,
     State h1 (last_tried parsers (lastParser s)) (trace s ++ Enter event (store s) :: t)).
Proof.
  intros Hpass.
  destruct (loop_pass_over parsers event h1 (State (store s) (lastParser s)
              (trace s ++ [Enter event (store s)])) Hpass)
    as (t & Hc & _ & Hp & _ & Hrun).
  exists t. split_and!; [done|done|].
  unfold processEvent. unfold_M. simpl in *.
  specialize (Hrun []). rewrite app_nil_r in Hrun. rewrite Hrun. simpl.
  by rewrite <- !app_assoc.
Qed.

Lemma processEvent_run parsers event s :
  processEvent parsers event s =
  processEvent_loop parsers event
    (State (store s) (lastParser s) (trace s ++ [Enter event (store s)])).
Proof. done. Qed.

(** ** Faults *)

(** C3 — classifier fault recovery.  When the parsers before position k
    are passed over and parser k faults with the error e (in its
    constructor or in [parse]), the dispatch logs the diagnostic of line 68
    and goes on with parser k+1: it gives the same result, store and
    [lastParser] as the chain in which parser k is replaced by a parser
    that declines (leaving the store the faulting parser leaves), and the
    two traces differ in the diagnostic alone (and in the mark of the
    [parse] call, when it is the constructor that raised). *)
Theorem fault_is_decline pre name P Q post event s h1 e h2 parserQ hq V :
  pass_over pre event (store s) = Some h1 →
  fault_of P event h1 = Some (e, h2) →
  construct Q h1 = (Ok parserQ, hq) →
  parse Q parserQ event hq = (Ok V, h2) →
  truthy V = false →
  ∃ r h' lp' t1 t2 d,
    processEvent (pre ++ (name, P) :: post) event s =
      (Ok r, State h' lp' (t1 ++ New name :: d ++ parse_error name e :: t2))
    ∧ processEvent (pre ++ (name, Q) :: post) event s =
      (Ok r, State h' lp' (t1 ++ New name :: Parse name event :: t2))
    ∧ (d = [] ∨ d = [Parse name event]).
Proof.
  intros Hpass Hfault HnewQ HparseQ Hfalsy.
  destruct (loop_pass_over pre event h1 (State (store s) (lastParser s)
              (trace s ++ [Enter event (store s)])) Hpass)
    as (t & _ & _ & _ & _ & Hrun).
  destruct (loop_shape post event h2) as (r & h' & t2 & tried & Hpost & _).
  set (t1 := (trace s ++ [Enter event (store s)]) ++ t).
  assert (HQ : processEvent (pre ++ (name, Q) :: post) event s =
               (Ok r, State h' (Some (default name tried))
                        (t1 ++ New name :: Parse name event :: t2))).
  { rewrite processEvent_run, Hrun, loop_cons, try_parser_run. simpl.
    rewrite HnewQ, HparseQ, Hfalsy, Hpost. fold t1.
    rewrite <- app_assoc. by destruct tried. }
  unfold fault_of in Hfault.
  destruct (construct P h1) as [[parser|e'] h1'] eqn:Hnew.
  - destruct (parse P parser event h1') as [[message|e'] h2'] eqn:Hparse; [done|].
    injection Hfault as -> ->.
    exists r, h', (Some (default name tried)), t1, t2, [Parse name event].
    split_and!; [|done|by right].
    rewrite processEvent_run, Hrun, loop_cons, try_parser_run. simpl.
    rewrite Hnew, Hparse, Hpost. fold t1.
    rewrite <- app_assoc. by destruct tried.
  - injection Hfault as -> ->.
    exists r, h', (Some (default name tried)), t1, t2, [].
    split_and!; [|done|by left].
    rewrite processEvent_run, Hrun, loop_cons, try_parser_run. simpl.
    rewrite Hnew, Hpost. fold t1.
    rewrite <- app_assoc. by destruct tried.
Qed.

(** ** Determinism *)

Lemma same_value_refl v h h' : (∀ l, v ≠ VRef l) → same_value v h v h'.
Proof.
  intros Hv depth. destruct v as [| | | | | |l]; try by destruct depth.
  by destruct (Hv l).
Qed.

(** The same value passes the tests of lines 55 and 57 alike. *)
Lemma same_value_tests V h V' h' :
  same_value V h V' h' →
  truthy V = truthy V' ∧ is_true V = is_true V'
  ∧ lodash.isEmpty V h = lodash.isEmpty V' h'.
Proof.
  intros Hsame. pose proof (Hsame 1) as H1.
  destruct V as [| |b|n| |text|l], V' as [| |b'|n'| |text'|l']; simpl in H1;
    try discriminate; try done; try (by injection H1 as ->);
    try (by destruct (h' !! l') as [[m'|a']|]);
    try (by destruct (h !! l) as [[m|a]|]).
  split_and!; [done|done|]. simpl.
  destruct (h !! l) as [[m|a]|], (h' !! l') as [[m'|a']|]; try discriminate; [| |done].
  - injection H1 as H1. apply (f_equal length) in H1. rewrite !length_fmap in H1.
    apply bool_decide_ext. rewrite <- !map_to_list_empty_iff.
    destruct (map_to_list m), (map_to_list m'); done.
  - injection H1 as H1. apply (f_equal length) in H1. rewrite !length_fmap in H1.
    apply bool_decide_ext. destruct a, a'; done.
Qed.

Section Repeat.

Variables (h0 : heap) (event : value).

Ltac chain :=
  solve [ eassumption
        | match goal with
          | H : ?a ⊆ _ |- ?a ⊆ _ => etrans; [exact H|]; chain
          end ].

Lemma set_fields_repeat P parser name V h V' h' :
  repeatable h0 event P → h0 ⊆ h → h ⊆ h' → same_value V h V' h' →
  raises (set_fields P parser V name h) = raises (set_fields P parser V' name h').
Proof.
  intros (_ & _ & _ & _ & Hset) H0 Hsub Hsame. unfold set_fields.
  pose proof (Hset parser "slackMessage" V h V' h' H0 Hsub Hsame) as H1.
  pose proof (Hset parser "name" (VStr name) h (VStr name) h' H0 Hsub) as H2.
  destruct (set_field P parser "slackMessage" V h) as [[]|e],
           (set_field P parser "slackMessage" V' h') as [[]|e']; try done.
  apply H2. by apply same_value_refl.
Qed.

Lemma try_parser_grows name P s :
  repeatable h0 event P → h0 ⊆ store s →
  store s ⊆ store (try_parser name P event s).2.
Proof.
  intros (Hgc & Hgp & _) H0. rewrite try_parser_run.
  pose proof (Hgc (store s) H0) as Gc.
  destruct (construct P (store s)) as [[parser|e] h1]; simpl in Gc; [|done].
  assert (H01 : h0 ⊆ h1) by chain.
  pose proof (Hgp parser h1 H01) as Gp.
  destruct (parse P parser event h1) as [[V|e] h2]; simpl in Gp.
  - assert (store s ⊆ h2) by chain.
    destruct (truthy V); [|done].
    destruct (is_true V || lodash.isEmpty V h2); [done|].
    by destruct (set_fields P parser V name h2) as [[]|e].
  - simpl. chain.
Qed.

Lemma loop_grows parsers : ∀ s,
  Forall (λ np, repeatable h0 event np.2) parsers → h0 ⊆ store s →
  store s ⊆ store (processEvent_loop parsers event s).2.
Proof.
  induction parsers as [|[name P] rest IH]; intros s Hrep H0; [done|].
  apply Forall_cons in Hrep as [HP Hrest]. simpl in HP.
  pose proof (try_parser_grows name P s HP H0) as Hstep.
  rewrite loop_cons.
  assert (Hok : ∃ o s1, try_parser name P event s = (Ok o, s1)).
  { rewrite try_parser_run.
    destruct (construct P (store s)) as [[parser|e] h1]; [|by eexists _, _].
    destruct (parse P parser event h1) as [[V|e] h2]; [|by eexists _, _].
    destruct (truthy V); [|by eexists _, _].
    destruct (is_true V || lodash.isEmpty V h2); [by eexists _, _|].
    destruct (set_fields P parser V name h2) as [[]|e]; by eexists _, _. }
  destruct Hok as (o & s1 & Htry). rewrite Htry in Hstep |- *. simpl in Hstep.
  destruct o as [v|]; [done|].
  etrans; [exact Hstep|]. apply IH; [done|]. chain.
Qed.

(** One turn of the loop, in a store and in an extension of the store
    that the first turn leaves: both go on, or both end the loop with the
    same result. *)
Lemma try_parser_repeat name P s s' :
  repeatable h0 event P → h0 ⊆ store s →
  store (try_parser name P event s).2 ⊆ store s' →
  ∃ o o' s1 s1',
    try_parser name P event s = (Ok o, s1)
    ∧ try_parser name P event s' = (Ok o', s1')
    ∧ lastParser s1 = Some name ∧ lastParser s1' = Some name
    ∧ store s' ⊆ store s1'
    ∧ match o, o' with
      | None, None => True
      | Some r, Some r' => same_result r (store s1) r' (store s1')
      | _, _ => False
      end.
Proof.
  intros HP H0. pose proof HP as (Hgc & Hgp & Hac & Hap & _).
  rewrite !try_parser_run.
  pose proof (Hgc (store s) H0) as Gc.
  pose proof (Hac (store s) (store s') H0) as Ac. unfold alike in Ac.
  destruct (construct P (store s)) as [[parser|e] h1]; simpl in Gc, Ac.
  - assert (H01 : h0 ⊆ h1) by chain.
    pose proof (Hgp parser h1 H01) as Gp.
    pose proof (Hap parser h1) as Ap. unfold alike in Ap.
    intros Hsub.
    assert (∃ r2 h2, parse P parser event h1 = (r2, h2) ∧ h2 ⊆ store s')
      as (r2 & h2 & Hparse & H2s).
    { destruct (parse P parser event h1) as [[V|e] h2]; [|by eexists _, _].
      exists (Ok V), h2. split; [done|]. revert Hsub.
      destruct (truthy V); [|done].
      destruct (is_true V || lodash.isEmpty V h2); [done|].
      by destruct (set_fields P parser V name h2) as [[]|e]. }
    rewrite Hparse in Gp, Ap |- *. simpl in Gp, Ap.
    assert (Hss' : store s ⊆ store s') by chain.
    specialize (Ac Hss').
    assert (H0s' : h0 ⊆ store s') by chain.
    pose proof (Hgc (store s') H0s') as Gc'.
    destruct (construct P (store s')) as [[parser'|e'] h1']; simpl in Gc', Ac; [|done].
    subst parser'.
    assert (H11' : h1 ⊆ h1') by chain.
    specialize (Ap h1' H01 H11').
    assert (H01' : h0 ⊆ h1') by chain.
    pose proof (Hgp parser h1' H01') as Gp'.
    destruct (parse P parser event h1') as [r2' h2']. simpl in Gp', Ap.
    assert (Hs'2' : store s' ⊆ h2') by chain.
    destruct r2 as [V|e], r2' as [V'|e']; try done; [|by eexists _, _, _, _].
    destruct (same_value_tests _ _ _ _ Ap) as (Htruthy & Htrue & Hempty).
    rewrite <- Htruthy, <- Htrue, <- Hempty.
    destruct (truthy V); [|by eexists _, _, _, _].
    destruct (is_true V || lodash.isEmpty V h2); [by eexists _, _, _, _|].
    assert (H02 : h0 ⊆ h2) by chain.
    assert (H22' : h2 ⊆ h2') by chain.
    pose proof (set_fields_repeat P parser name V h2 V' h2' HP H02 H22' Ap) as Hset.
    destruct (set_fields P parser V name h2) as [[]|e],
             (set_fields P parser V' name h2') as [[]|e']; try done;
      by eexists _, _, _, _.
  - intros Hsub. simpl in Hsub.
    assert (Hss' : store s ⊆ store s') by chain.
    specialize (Ac Hss').
    assert (H0s' : h0 ⊆ store s') by chain.
    pose proof (Hgc (store s') H0s') as Gc'.
    destruct (construct P (store s')) as [[parser'|e'] h1']; simpl in Gc', Ac; [done|].
    by eexists _, _, _, _.
Qed.

(** The loop, in a store and in an extension of the store that the first
    run leaves. *)
Lemma loop_repeat parsers : ∀ s s',
  Forall (λ np, repeatable h0 event np.2) parsers →
  h0 ⊆ store s →
  store (processEvent_loop parsers event s).2 ⊆ store s' →
  ∃ r r' s1 s1' tried,
    processEvent_loop parsers event s = (Ok r, s1)
    ∧ processEvent_loop parsers event s' = (Ok r', s1')
    ∧ lastParser s1 = from_option Some (lastParser s) tried
    ∧ lastParser s1' = from_option Some (lastParser s') tried
    ∧ same_result r (store s1) r' (store s1').
Proof.
  induction parsers as [|[name P] rest IH]; intros s s' Hrep H0 Hsub.
  - by exists Undefined, Undefined, s, s', None.
  - apply Forall_cons in Hrep as [HP Hrest]. simpl in HP.
    assert (Hstep : store (try_parser name P event s).2 ⊆ store s').
    { etrans; [|exact Hsub]. rewrite loop_cons.
      pose proof (try_parser_grows name P s HP H0) as Hg.
      destruct (try_parser name P event s) as [[[v|]|e] s1] eqn:Htry; try done.
      simpl. apply loop_grows; [done|]. simpl in Hg. chain. }
    destruct (try_parser_repeat name P s s' HP H0 Hstep)
      as (o & o' & s1 & s1' & Htry & Htry' & Hl & Hl' & Hg' & Hsame).
    revert Hsub. rewrite !loop_cons, Htry, Htry'.
    destruct o as [r|], o' as [r'|]; try done.
    + intros _. by exists r, r', s1, s1', (Some name).
    + intros Hsub.
      assert (H01 : h0 ⊆ store s1).
      { pose proof (try_parser_grows name P s HP H0) as Hg. rewrite Htry in Hg.
        chain. }
      destruct (IH s1 s1' Hrest H01) as (r & r' & s2 & s2' & tried & -> & -> & Hl2 & Hl2' & Hres).
      { chain. }
      exists r, r', s2, s2', (Some (default name tried)).
      split_and!; [done|done| | |done].
      * rewrite Hl2, Hl. by destruct tried.
      * rewrite Hl2', Hl'. by destruct tried.
Qed.

End Repeat.

(** C8 — idempotence of the dispatch.  With parsers that are without
    side effects and deterministic on the event (they write no object
    there is, although they may create their message, and they answer
    alike in a store and in an extension of it), a second run of
    [processEvent] on the same event returns what the first run returned:
    the same parser with the same name and a message of the same content
    (a new object with the same properties, when the parser creates its
    message), or [null] twice, or [undefined] twice; and it leaves the
    same [lastParser]. *)
Theorem processEvent_twice parsers event s :
  Forall (λ np, repeatable (store s) event np.2) parsers →
  let first := processEvent parsers event s in
  let second := processEvent parsers event first.2 in
  ∃ r1 r2,
    first.1 = Ok r1 ∧ second.1 = Ok r2
    ∧ same_result r1 (store first.2) r2 (store second.2)
    ∧ lastParser second.2 = lastParser first.2.
Proof.
  intros Hrep. simpl. rewrite !processEvent_run.
  set (s0 := State (store s) (lastParser s) (trace s ++ [Enter event (store s)])).
  destruct (loop_shape parsers event (store s)) as (r1 & h1 & t1 & tried1 & Hloop & _).
  pose proof (Hloop (lastParser s) (trace s ++ [Enter event (store s)])) as Hrun1.
  fold s0 in Hrun1. set (s1 := State h1 _ _) in Hrun1.
  rewrite Hrun1. cbn [fst snd].
  set (s0' := State (store s1) (lastParser s1) (trace s1 ++ [Enter event (store s1)])).
  destruct (loop_repeat (store s) event parsers s0 s0' Hrep) as
    (r & r' & s2 & s2' & tried & Hrun & Hrun' & Hl & Hl' & Hres).
  { done. }
  { by rewrite Hrun1. }
  rewrite Hrun1 in Hrun. injection Hrun as <- <-.
  rewrite Hrun'. exists r1, r'. split_and!; [done|done|done|].
  cbn [snd]. rewrite Hl'. change (lastParser s0') with (lastParser s1).
  rewrite Hl. by destruct tried.
Qed.

(** ** The copy of one record *)

Lemma alloc_other h l c : is_Some (h !! l) → <[fresh (dom h) := c]> h !! l = h !! l.
Proof.
  intros Hl. apply lookup_insert_ne. intros <-.
  apply elem_of_dom in Hl. by apply is_fresh in Hl.
Qed.

(** The copy changes no cell there was, writes no trace, and is a new
    object. *)
Lemma single_record_event_frame event i s :
  ∃ r h',
    single_record_event event i s = (r, State h' (lastParser s) (trace s))
    ∧ (∀ l, is_Some (store s !! l) → h' !! l = store s !! l)
    ∧ ∀ v, r = Ok v → ∃ d, v = VRef d ∧ store s !! d = None.
Proof.
  unfold single_record_event, lodash.assign. unfold_M. simpl.
  set (d := fresh (dom (store s))).
  set (h1 := <[d := CObj ∅]> (store s)).
  assert (Hd : store s !! d = None).
  { apply not_elem_of_dom. apply is_fresh. }
  assert (H1 : ∀ l, is_Some (store s !! l) → h1 !! l = store s !! l).
  { intros l Hl. by apply alloc_other. }
  destruct (get_prop event "Records" h1) as [records|e]; simpl;
    [|eexists _, _; split_and!; [done|done|done]].
  destruct (get_index records i h1) as [record|e]; simpl;
    [|eexists _, _; split_and!; [done|done|done]].
  set (a := fresh (dom h1)).
  set (h2 := <[a := CArr [record]]> h1).
  set (src := fresh (dom h2)).
  set (h3 := <[src := CObj {["Records" := VRef a]}]> h2).
  assert (H1d : h1 !! d = Some (CObj ∅)) by apply lookup_insert_eq.
  assert (H2d : h2 !! d = Some (CObj ∅)).
  { unfold h2, a. by rewrite alloc_other. }
  assert (H3d : h3 !! d = Some (CObj ∅)).
  { unfold h3, src. by rewrite alloc_other. }
  rewrite H3d. eexists _, _. split_and!; [done| |].
  - intros l Hl. rewrite lookup_insert_ne by (intros <-; rewrite Hd in Hl; by destruct Hl).
    unfold h3, src. rewrite alloc_other.
    + unfold h2, a. rewrite alloc_other; [by apply H1|]. by rewrite H1.
    + unfold h2, a. rewrite alloc_other; rewrite H1; done.
  - intros v [= <-]. by exists d.
Qed.

(** [single_record_event] on an object whose [Records] is a reference:
    the copy has the fields of the event, with [Records] replaced by a new
    array of the one record; the record is element [i] when [Records] is
    an array. *)
Lemma single_record_event_copy le m lr i s :
  store s !! le = Some (CObj m) →
  m !! "Records" = Some (VRef lr) →
  ∃ d a h' record,
    single_record_event (VRef le) i s = (Ok (VRef d), State h' (lastParser s) (trace s))
    ∧ h' !! d = Some (CObj (<["Records" := VRef a]> m))
    ∧ h' !! a = Some (CArr [record])
    ∧ ∀ recs, store s !! lr = Some (CArr recs) → record = default VUndefined (recs !! i).
Proof.
  intros He Hm.
  unfold single_record_event, lodash.assign. unfold_M. simpl.
  set (d := fresh (dom (store s))).
  set (h1 := <[d := CObj ∅]> (store s)).
  assert (H1 : ∀ l, is_Some (store s !! l) → h1 !! l = store s !! l).
  { intros l Hl. by apply alloc_other. }
  rewrite (H1 le), He by done. simpl. rewrite Hm. simpl.
  assert (∃ record, (match h1 !! lr with
                     | Some (CObj m0) => Ok (default VUndefined (m0 !! pretty i))
                     | Some (CArr a) => Ok (default VUndefined (a !! i))
                     | None => Ok VUndefined
                     end) = Ok record
                    ∧ ∀ recs, store s !! lr = Some (CArr recs) →
                              record = default VUndefined (recs !! i))
    as (record & -> & Hrecord).
  { destruct (store s !! lr) as [c|] eqn:Hlr.
    - rewrite (H1 lr), Hlr by done. destruct c as [m0|a0]; eexists; split; try done.
      by intros recs [= <-].
    - destruct (h1 !! lr) as [[m0|a0]|]; eexists; split; done. }
  simpl.
  set (a := fresh (dom h1)).
  set (h2 := <[a := CArr [record]]> h1).
  set (src := fresh (dom h2)).
  set (h3 := <[src := CObj {["Records" := VRef a]}]> h2).
  assert (H1d : h1 !! d = Some (CObj ∅)) by apply lookup_insert_eq.
  assert (H2d : h2 !! d = Some (CObj ∅)).
  { unfold h2, a. by rewrite alloc_other. }
  assert (H3d : h3 !! d = Some (CObj ∅)).
  { unfold h3, src. by rewrite alloc_other. }
  assert (H2a : h2 !! a = Some (CArr [record])) by apply lookup_insert_eq.
  assert (H3a : h3 !! a = Some (CArr [record])).
  { unfold h3, src. by rewrite alloc_other. }
  assert (H3s : h3 !! src = Some (CObj {["Records" := VRef a]})) by apply lookup_insert_eq.
  assert (H3e : h3 !! le = Some (CObj m)).
  { unfold h3, src. rewrite alloc_other.
    - unfold h2, a. rewrite alloc_other; by rewrite H1.
    - unfold h2, a. rewrite alloc_other; by rewrite H1. }
  assert (Had : a ≠ d).
  { intros Heq. pose proof (is_fresh (dom h1)) as Hf. fold a in Hf.
    apply Hf. rewrite Heq. apply elem_of_dom. by rewrite H1d. }
  rewrite H3d. unfold lodash.own_props. rewrite H3s, H3e.
  exists d, a. eexists _, record. split_and!; [done| | |done].
  - rewrite lookup_insert_eq. do 2 f_equal.
    by rewrite (right_id ∅ (∪)), insert_union_singleton_l.
  - by rewrite lookup_insert_ne.
Qed.

(** ** What is done with a result *)

Lemma sink_errors_app t1 t2 : sink_errors (t1 ++ t2) = sink_errors t1 ++ sink_errors t2.
Proof. unfold sink_errors. by rewrite posted_app, omap_app. Qed.

Lemma handle_record_result_shape i (parser : returned instance) s :
  ∃ r h' t,
    handle_record_result postMessage JSON_stringify i parser s =
      (r, State h' (lastParser s) (trace s ++ t))
    ∧ entered t = [] ∧ callbacks t = []
    ∧ (∀ l, is_Some (store s !! l) → (∀ message, keeps_cell l (postMessage message)) →
            h' !! l = store s !! l)
    ∧ match r with
      | Ok _ => sink_errors t = []
      | Raise e =>
          sink_errors t = [e]
          ∨ (sink_errors t = []
             ∧ ∃ inst V name, parser = Parser inst V name
                              ∧ JSON_stringify V (store s) = Raise e)
      end.
Proof.
  destruct parser as [inst msg name| |]; simpl; unfold_M; simpl.
  - destruct (JSON_stringify msg (store s)) as [text|e] eqn:Htext; simpl.
    + destruct (postMessage msg (store s)) as [[[]|e] h'] eqn:Hpost; simpl;
        rewrite <- app_assoc; simpl;
        (eexists _, _, _; split_and!;
           [done|done|done| |first [reflexivity | left; reflexivity]]);
        intros l Hs Hl; specialize (Hl msg (store s) Hs); by rewrite Hpost in Hl.
    + exists (Raise e), (store s), []. rewrite app_nil_r.
      split_and!; [by destruct s|done|done|done|].
      right. split; [done|]. by exists inst, msg, name.
  - destruct (lastParser_truthy (lastParser s));
      (eexists _, _, _; split_and!; [done|done|done|done|done]).
  - destruct (lastParser_truthy (lastParser s));
      (eexists _, _, _; split_and!; [done|done|done|done|done]).
Qed.

Lemma handle_result_shape (parser : returned instance) s :
  ∃ r h' t,
    handle_result postMessage JSON_stringify parser s =
      (r, State h' (lastParser s) (trace s ++ t))
    ∧ entered t = [] ∧ callbacks t = []
    ∧ (∀ l, is_Some (store s !! l) → (∀ message, keeps_cell l (postMessage message)) →
            h' !! l = store s !! l)
    ∧ match r with
      | Ok _ => sink_errors t = []
      | Raise e =>
          sink_errors t = [e]
          ∨ (sink_errors t = []
             ∧ ∃ inst V name, parser = Parser inst V name
                              ∧ JSON_stringify V (store s) = Raise e)
      end.
Proof.
  destruct parser as [inst msg name| |]; simpl; unfold_M; simpl.
  - destruct (JSON_stringify msg (store s)) as [text|e] eqn:Htext; simpl.
    + destruct (postMessage msg (store s)) as [[[]|e] h'] eqn:Hpost; simpl;
        rewrite <- app_assoc; simpl;
        (eexists _, _, _; split_and!;
           [done|done|done| |first [reflexivity | left; reflexivity]]);
        intros l Hs Hl; specialize (Hl msg (store s) Hs); by rewrite Hpost in Hl.
    + exists (Raise e), (store s), []. rewrite app_nil_r.
      split_and!; [by destruct s|done|done|done|].
      right. split; [done|]. by exists inst, msg, name.
  - destruct (lastParser_truthy (lastParser s));
      (eexists _, _, _; split_and!; [done|done|done|done|done]).
  - destruct (lastParser_truthy (lastParser s));
      (eexists _, _, _; split_and!; [done|done|done|done|done]).
Qed.

(** ** One record *)

Lemma processEvent_shape parsers event s :
  ∃ r h' lp' t,
    processEvent parsers event s =
      (Ok r, State h' lp' (trace s ++ Enter event (store s) :: t))
    ∧ entered t = [] ∧ posted t = [] ∧ callbacks t = []
    ∧ (∀ l, is_Some (store s !! l) → Forall (λ np, parser_keeps l np.2) parsers →
            h' !! l = store s !! l).
Proof.
  destruct (loop_shape parsers event (store s))
    as (r & h' & t & tried & Hrun & He & Hp & Hc & Hf).
  exists r, h', (from_option Some (lastParser s) tried), t.
  rewrite processEvent_run, Hrun, <- app_assoc. by split_and!.
Qed.

Lemma sink_errors_no_post t : posted t = [] → sink_errors t = [].
Proof. unfold sink_errors. by intros ->. Qed.

(** The message of a returned parser is one that its [parse] returned,
    in the store the run ends with. *)
Lemma loop_parsed parsers event : ∀ s inst V name s',
  processEvent_loop parsers event s = (Ok (Parser inst V name), s') →
  parsed parsers V (store s').
Proof.
  induction parsers as [|[n P] rest IH]; intros s inst V name s'; [done|].
  rewrite loop_cons, try_parser_run.
  assert (Hrest : ∀ s0, processEvent_loop rest event s0 = (Ok (Parser inst V name), s') →
                        parsed ((n, P) :: rest) V (store s')).
  { intros s0 Hrun. destruct (IH _ _ _ _ _ Hrun) as (n' & P' & p' & ev & h & Hin & Hparse).
    exists n', P', p', ev, h. split; [by right|done]. }
  destruct (construct P (store s)) as [[parser|e] h1]; [|apply Hrest].
  destruct (parse P parser event h1) as [[message|e] h2] eqn:Hparse; [|apply Hrest].
  destruct (truthy message); [|apply Hrest].
  destruct (is_true message || lodash.isEmpty message h2); [done|].
  destruct (set_fields P parser message n h2) as [[]|e]; [|apply Hrest].
  intros [= <- <- <- <-]. exists n, P, parser, event, h1. split; [by left|done].
Qed.

Lemma processEvent_parsed parsers event s r s' :
  processEvent parsers event s = (Ok r, s') →
  ∀ inst V name, r = Parser inst V name → parsed parsers V (store s').
Proof.
  rewrite processEvent_run. intros Hrun inst V name ->. by eapply loop_parsed.
Qed.

(** The outcome of the handling of a result of [processEvent]. *)
Lemma handling_is_delivery parsers event s0 r1 s1 r t :
  processEvent parsers event s0 = (Ok r1, s1) →
  match r with
  | Ok _ => sink_errors t = []
  | Raise e =>
      sink_errors t = [e]
      ∨ (sink_errors t = []
         ∧ ∃ inst V name, r1 = Parser inst V name
                          ∧ JSON_stringify V (store s1) = Raise e)
  end →
  delivery_outcome parsers r t.
Proof.
  intros Hrun. destruct r as [u|e]; [done|].
  intros [Hs|[Hs (inst & V & name & -> & Hraise)]]; [by left|right].
  split; [done|]. exists V, (store s1). split; [|done].
  by eapply processEvent_parsed.
Qed.

(** The body of the loop changes no cell that the collaborators keep, and
    the event it dispatches is a new object. *)
Lemma handle_record_shape parsers event i s :
  ∃ r h' lp' t,
    handle_record postMessage JSON_stringify parsers event i s =
      (r, State h' lp' (trace s ++ t))
    ∧ callbacks t = []
    ∧ (∀ l, is_Some (store s !! l) → collaborators_keep postMessage l parsers →
            h' !! l = store s !! l)
    ∧ (∀ run, run ∈ entered t → ∃ d, run.1 = VRef d ∧ store s !! d = None).
Proof.
  unfold handle_record. unfold mbind, M_bind.
  destruct (single_record_event_frame event i s) as (r0 & h0 & -> & Hf0 & Hd0).
  destruct r0 as [ev|e].
  - destruct (Hd0 ev eq_refl) as (d & -> & Hd).
    destruct (processEvent_shape parsers (VRef d) (State h0 (lastParser s) (trace s)))
      as (r1 & h1 & lp1 & t1 & -> & He1 & Hp1 & Hc1 & Hf1).
    destruct (handle_record_result_shape i r1
                (State h1 lp1 (trace (State h0 (lastParser s) (trace s))
                               ++ Enter (VRef d) (store (State h0 (lastParser s) (trace s)))
                               :: t1)))
      as (r2 & h2 & t2 & -> & He2 & Hc2 & Hf2 & _).
    simpl in *. exists r2, h2, lp1, ((Enter (VRef d) h0 :: t1) ++ t2).
    rewrite callbacks_app, entered_app. simpl. rewrite He1, He2, Hc1, Hc2.
    split_and!; [by rewrite <- !app_assoc|done| |].
    + intros l Hl [Hkp Hks].
      assert (H0 : h0 !! l = store s !! l) by by apply Hf0.
      assert (H1 : h1 !! l = h0 !! l) by (apply Hf1; [by rewrite H0|done]).
      rewrite Hf2; [congruence|by rewrite H1, H0|done].
    + intros run ->%list_elem_of_singleton. by exists d.
  - exists (Raise e), h0, (lastParser s), []. rewrite app_nil_r.
    split_and!; [done|done| |].
    + intros l Hl _. by apply Hf0.
    + intros run Hrun. by apply elem_of_nil in Hrun.
Qed.

Lemma for_in_Records_cons i keys enumerated parsers event s :
  for_in_Records postMessage JSON_stringify (i :: keys) enumerated parsers event s =
  if has_index enumerated i (store s) then
    match handle_record postMessage JSON_stringify parsers event i s with
    | (Ok _, s1) =>
        for_in_Records postMessage JSON_stringify keys enumerated parsers event s1
    | (Raise e, s1) => (Raise e, s1)
    end
  else for_in_Records postMessage JSON_stringify keys enumerated parsers event s.
Proof.
  simpl. unfold mbind, M_bind, look, mret, M_ret. simpl.
  destruct (has_index enumerated i (store s)); [|done].
  by destruct (handle_record _ _ _ _ _ s) as [[[]|e] s1].
Qed.

(** The loop changes no cell that the collaborators keep; the events it
    dispatches are new objects; it does not call [callback]. *)
Lemma for_in_Records_frame parsers event enumerated keys : ∀ s,
  ∃ r h' lp' t,
    for_in_Records postMessage JSON_stringify keys enumerated parsers event s =
      (r, State h' lp' (trace s ++ t))
    ∧ callbacks t = []
    ∧ ∀ l, is_Some (store s !! l) → collaborators_keep postMessage l parsers →
           h' !! l = store s !! l ∧ ∀ run, run ∈ entered t → run.1 ≠ VRef l.
Proof.
  induction keys as [|i keys IH]; intros s.
  - exists (Ok tt), (store s), (lastParser s), []. rewrite app_nil_r.
    split_and!; [by destruct s|done|].
    intros l _ _. split; [done|]. intros run Hrun. by apply elem_of_nil in Hrun.
  - rewrite for_in_Records_cons.
    destruct (has_index enumerated i (store s)).
    + destruct (handle_record_shape parsers event i s)
        as (r1 & h1 & lp1 & t1 & -> & Hc1 & Hf1 & Hd1).
      destruct r1 as [[]|e].
      * destruct (IH (State h1 lp1 (trace s ++ t1)))
          as (r2 & h2 & lp2 & t2 & -> & Hc2 & Hf2).
        simpl in *. exists r2, h2, lp2, (t1 ++ t2).
        rewrite callbacks_app, Hc1, Hc2, app_assoc. split_and!; [done|done|].
        intros l Hl Hk. destruct (Hf2 l) as [Hl2 Hr2]; [by rewrite Hf1|done|].
        split; [by rewrite Hl2, Hf1|].
        intros run [Hrun|Hrun]%entered_app_elem.
        -- destruct (Hd1 run Hrun) as (d & -> & Hd). intros [= ->].
           rewrite Hd in Hl. by destruct Hl.
        -- by apply Hr2.
      * exists (Raise e), h1, lp1, t1. split_and!; [done|done|].
        intros l Hl Hk. split; [by apply Hf1|].
        intros run Hrun. destruct (Hd1 run Hrun) as (d & -> & Hd). intros [= ->].
        rewrite Hd in Hl. by destruct Hl.
    + apply IH.
Qed.

Lemma delivery_outcome_after parsers t1 t2 r :
  sink_errors t1 = [] → delivery_outcome parsers r t2 → delivery_outcome parsers r (t1 ++ t2).
Proof.
  intros H1. destruct r; simpl; rewrite sink_errors_app, H1; done.
Qed.

Lemma handle_record_result_handled i (parser : returned instance) s :
  ∃ failure h' handling,
    handle_record_result postMessage JSON_stringify i parser s =
      (match failure with None => Ok tt | Some e => Raise e end,
       State h' (lastParser s) (trace s ++ handling))
    ∧ handled parser (store s) handling failure.
Proof.
  destruct parser as [inst msg name| |]; simpl; unfold_M; simpl.
  - destruct (JSON_stringify msg (store s)) as [text|e] eqn:Htext; simpl.
    + destruct (postMessage msg (store s)) as [[[]|e] h'] eqn:Hpost; simpl;
        rewrite <- app_assoc; simpl.
      * exists None, h'. eexists. split; [done|]. split; [done|]. by exists h'.
      * exists (Some e), h'. eexists. split; [done|]. split; [done|]. by exists h'.
    + exists (Some e), (store s), []. rewrite app_nil_r. split; [by destruct s|done].
  - destruct (lastParser_truthy (lastParser s));
      (exists None; eexists _, _; split; [done|]; split; [done|]; by eexists _, _).
  - destruct (lastParser_truthy (lastParser s));
      (exists None; eexists _, _; split; [done|]; split; [done|]; by eexists _, _).
Qed.

Lemma handled_quiet (r : returned instance) h handling failure :
  handled r h handling failure → entered handling = [] ∧ callbacks handling = [].
Proof.
  destruct r as [inst V name| |]; simpl.
  - destruct (JSON_stringify V h) as [text|e]; by intros [-> _].
  - by intros [_ (lvl & text & ->)].
  - by intros [_ (lvl & text & ->)].
Qed.

(** The body of the loop on an object whose [Records] is a reference:
    one dispatch, on a single-record copy, then the delivery. *)
Lemma handle_record_copy parsers le m lr i s :
  store s !! le = Some (CObj m) →
  m !! "Records" = Some (VRef lr) →
  ∃ failure h' lp' segment record,
    handle_record postMessage JSON_stringify parsers (VRef le) i s =
      (match failure with None => Ok tt | Some e => Raise e end,
       State h' lp' (trace s ++ segment))
    ∧ callbacks segment = []
    ∧ delivery_outcome parsers
        (match failure with None => Ok tt | Some e => Raise e end) segment
    ∧ record_segment parsers m record (segment, failure)
    ∧ ∀ recs, store s !! lr = Some (CArr recs) → record = default VUndefined (recs !! i).
Proof.
  intros He Hm. unfold handle_record. unfold mbind, M_bind.
  destruct (single_record_event_copy le m lr i s He Hm)
    as (d & a & h0 & record & -> & Hd & Ha & Hrecord).
  destruct (loop_shape parsers (VRef d) h0)
    as (r1 & h1 & t1 & tried & Hloop & He1 & Hp1 & Hc1 & _).
  assert (Hrun1 : ∀ lp t0,
             processEvent parsers (VRef d) (State h0 lp t0) =
               (Ok r1, State h1 (from_option Some lp tried) (t0 ++ Enter (VRef d) h0 :: t1))).
  { intros lp t0. rewrite processEvent_run, Hloop, <- app_assoc. done. }
  rewrite Hrun1.
  destruct (handle_record_result_shape i r1
              (State h1 (from_option Some (lastParser s) tried)
                 (trace s ++ Enter (VRef d) h0 :: t1)))
    as (r2 & h2 & t2 & Hrun2 & He2 & Hc2 & _ & Hout).
  apply (handling_is_delivery _ _ _ _ _ _ _ (Hrun1 (lastParser s) (trace s))) in Hout.
  destruct (handle_record_result_handled i r1
              (State h1 (from_option Some (lastParser s) tried)
                 (trace s ++ Enter (VRef d) h0 :: t1)))
    as (failure & h2' & handling & Hrun2' & Hh).
  cbn [store lastParser trace] in *.
  rewrite Hrun2' in Hrun2. injection Hrun2 as Hr <- Ht. apply app_inv_head in Ht as <-.
  rewrite Hrun2', <- app_assoc.
  exists failure, h2', (from_option Some (lastParser s) tried),
    (Enter (VRef d) h0 :: t1 ++ handling), record.
  split_and!; [done| | | |done].
  - change (Enter (VRef d) h0 :: t1 ++ handling)
      with ((Enter (VRef d) h0 :: t1) ++ handling).
    rewrite callbacks_app. simpl. by rewrite Hc1, Hc2.
  - rewrite Hr.
    change (Enter (VRef d) h0 :: t1 ++ handling)
      with ((Enter (VRef d) h0 :: t1) ++ handling).
    apply delivery_outcome_after; [by apply sink_errors_no_post|done].
  - exists (VRef d, h0), t1, r1, h1, handling. simpl. split_and!; try done.
    + by exists d, a.
    + intros lp t0. eexists. apply Hrun1.
Qed.

(** ** The loop over the records *)

(** The loop on an object whose [Records] is a reference, with
    collaborators that keep the object: it ends without an error or with
    the error of a delivery; when [Records] is kept too and the keys are
    those of the records still to visit, the trace is made of the segments
    of these records, in order: all of them, none of which fails, when
    the loop ends without an error; and otherwise up to the segment that
    fails, with the error the loop ends with. *)
Lemma for_in_Records_copy parsers le m lr keys : ∀ s,
  store s !! le = Some (CObj m) →
  m !! "Records" = Some (VRef lr) →
  collaborators_keep postMessage le parsers →
  ∃ r h' lp' t,
    for_in_Records postMessage JSON_stringify keys (VRef lr) parsers (VRef le) s =
      (r, State h' lp' (trace s ++ t))
    ∧ callbacks t = []
    ∧ delivery_outcome parsers r t
    ∧ ∀ visited rest,
        store s !! lr = Some (CArr (visited ++ rest)) →
        collaborators_keep postMessage lr parsers →
        keys = seq (length visited) (length rest) →
        ∃ segments,
          t = concat segments.*1
          ∧ Forall2 (record_segment parsers m) (take (length segments) rest) segments
          ∧ match r with
            | Ok _ => length segments = length rest ∧ Forall (λ sg, sg.2 = None) segments
            | Raise e =>
                ∃ front sg, segments = front ++ [(sg, Some e)]
                            ∧ Forall (λ sg, sg.2 = None) front
            end.
Proof.
  induction keys as [|i keys IH]; intros s He Hm Hke.
  - exists (Ok tt), (store s), (lastParser s), []. rewrite app_nil_r.
    split_and!; [by destruct s|done|done|].
    intros visited rest _ _ Hkeys. exists []. simpl.
    split_and!; [done|by rewrite take_0| |done].
    destruct rest; [done|]. simpl in Hkeys. done.
  - rewrite for_in_Records_cons.
    destruct (has_index (VRef lr) i (store s)) eqn:Hhas.
    + destruct (handle_record_copy parsers le m lr i s He Hm)
        as (failure & h1 & lp1 & sg & record & Hrun1 & Hc1 & Hout1 & Hseg & Hrecord).
      destruct (handle_record_shape parsers (VRef le) i s)
        as (r1' & h1' & lp1' & t1' & Hrun1' & _ & Hf1 & _).
      rewrite Hrun1 in Hrun1'. injection Hrun1' as _ <- <- _.
      rewrite Hrun1.
      assert (Hcopy1 : ∀ visited rest,
                 store s !! lr = Some (CArr (visited ++ rest)) →
                 i :: keys = seq (length visited) (length rest) →
                 ∃ x rest', rest = x :: rest'
                            ∧ record_segment parsers m x (sg, failure)
                            ∧ keys = seq (length (visited ++ [x])) (length rest')).
      { intros visited rest Hlr Hkeys. destruct rest as [|x rest']; [done|].
        simpl in Hkeys. injection Hkeys as -> ->.
        exists x, rest'. split_and!; [done| |].
        - rewrite (Hrecord _ Hlr), lookup_app_r, Nat.sub_diag in Hseg by lia. done.
        - rewrite length_app. simpl. by rewrite Nat.add_1_r. }
      destruct failure as [e|].
      * exists (Raise e), h1, lp1, sg. split_and!; [done|done|done|].
        intros visited rest Hlr Hkr Hkeys.
        destruct (Hcopy1 visited rest Hlr Hkeys) as (x & rest' & -> & Hx & Hkeys').
        exists [(sg, Some e)]. split_and!.
        -- simpl. by rewrite app_nil_r.
        -- simpl. rewrite take_0. by repeat constructor.
        -- by exists [], sg.
      * destruct (IH (State h1 lp1 (trace s ++ sg)))
          as (r2 & h2 & lp2 & t2 & -> & Hc2 & Hout2 & Hcopy2).
        { simpl. rewrite Hf1; [done|by rewrite He|done]. }
        { done. }
        { done. }
        simpl in *. exists r2, h2, lp2, (sg ++ t2).
        rewrite callbacks_app, Hc1, Hc2.
        split_and!; [by rewrite <- !app_assoc|done| |].
        -- by apply delivery_outcome_after.
        -- intros visited rest Hlr Hkr Hkeys.
           destruct (Hcopy1 visited rest Hlr Hkeys) as (x & rest' & -> & Hx & Hkeys').
           destruct (Hcopy2 (visited ++ [x]) rest') as (segments & -> & Hall & Hend).
           { rewrite Hf1; [|by rewrite Hlr|done]. by rewrite <- app_assoc. }
           { done. }
           { done. }
           exists ((sg, None) :: segments). split_and!.
           ++ done.
           ++ simpl. by constructor.
           ++ destruct r2 as [u|e].
              ** destruct Hend as [Hn Hnone]. split; [simpl; by f_equal|].
                 by constructor.
              ** destruct Hend as (front & sg' & -> & Hnone).
                 exists ((sg, None) :: front), sg'. split; [done|]. by constructor.
    + destruct (IH s He Hm Hke) as (r2 & h2 & lp2 & t2 & -> & Hc2 & Hout2 & Hcopy2).
      exists r2, h2, lp2, t2. split_and!; [done|done|done|].
      intros visited rest Hlr Hkr Hkeys. exfalso.
      destruct rest as [|x rest']; [done|]. simpl in Hkeys. injection Hkeys as -> _.
      simpl in Hhas. rewrite Hlr in Hhas.
      apply bool_decide_eq_false in Hhas. apply Hhas.
      rewrite length_app. simpl. lia.
Qed.

(** ** The end of an invocation *)

(** The [try] block, with the binds and the [catch] put together. *)
Lemma dispatch_run parsers event s :
  dispatch postMessage JSON_stringify parsers event s =
  match get_prop event "Records" (store s) with
  | Raise e => finish (Raise e, State (store s) None (trace s))
  | Ok records =>
      finish
        ((if lodash.isArray records (store s)
             && gt_1 (match get_prop records "length" (store s) with
                      | Ok len => len
                      | Raise _ => VUndefined
                      end)
          then for_in_Records postMessage JSON_stringify
                 (for_in_keys records (store s)) records parsers event
          else (parser ← processEvent parsers event;
                handle_result postMessage JSON_stringify parser))
           (State (store s) None (trace s)))
  end.
Proof.
  unfold dispatch, finish. unfold_M. cbv beta. cbn [store lastParser trace].
  destruct (get_prop event "Records" (store s)) as [records|e];
    [|cbn; by rewrite <- app_assoc].
  destruct (lodash.isArray records (store s)) eqn:Harr; cbn [andb];
    cbv beta; cbn [store lastParser trace].
  - assert (∃ len, get_prop records "length" (store s) = Ok len) as [len ->].
    { destruct records as [| | | | | |lr]; try done. simpl in *.
      destruct (store s !! lr) as [[m0|a0]|]; try done. by eexists. }
    destruct (gt_1 len).
    + destruct (for_in_Records _ _ _ _ _ _ _) as [[[]|e] s1]; cbn; [done|].
      by rewrite <- app_assoc.
    + destruct (processEvent parsers event _) as [[parser|e] s1]; cbn.
      * destruct (handle_result _ _ parser s1) as [[[]|e] s2]; cbn; [done|].
        by rewrite <- app_assoc.
      * by rewrite <- app_assoc.
  - destruct (processEvent parsers event _) as [[parser|e] s1]; cbn.
    + destruct (handle_result _ _ parser s1) as [[[]|e] s2]; cbn; [done|].
      by rewrite <- app_assoc.
    + by rewrite <- app_assoc.
Qed.

(** An event that is [null] or [undefined]: reading [event.Records]
    raises, and the [catch] reports the error. *)
Lemma dispatch_null parsers event s :
  event = VNull ∨ event = VUndefined →
  dispatch postMessage JSON_stringify parsers event s =
  (Ok tt, State (store s) None
            (trace s ++ [Console Log [AVal (VStr "ERROR:"); AExn TypeError];
                         Callback (Some TypeError)])).
Proof.
  intros [-> | ->]; by rewrite dispatch_run.
Qed.

(** An object whose [Records] is an array of more than one element. *)
Lemma dispatch_many parsers le m lr recs s :
  store s !! le = Some (CObj m) →
  m !! "Records" = Some (VRef lr) →
  store s !! lr = Some (CArr recs) →
  1 < length recs →
  dispatch postMessage JSON_stringify parsers (VRef le) s =
  finish (for_in_Records postMessage JSON_stringify (seq 0 (length recs)) (VRef lr)
            parsers (VRef le) (State (store s) None (trace s))).
Proof.
  intros He Hm Hr Hlen. rewrite dispatch_run.
  assert (get_prop (VRef le) "Records" (store s) = Ok (VRef lr)) as ->.
  { simpl. rewrite He. simpl. by rewrite Hm. }
  assert (lodash.isArray (VRef lr) (store s) = true) as ->.
  { simpl. by rewrite Hr. }
  assert (get_prop (VRef lr) "length" (store s) = Ok (VNum (Z.of_nat (length recs))))
    as ->.
  { simpl. by rewrite Hr. }
  assert (for_in_keys (VRef lr) (store s) = seq 0 (length recs)) as ->.
  { simpl. by rewrite Hr. }
  unfold gt_1.
  assert ((1 <? Z.of_nat (length recs))%Z = true) as -> by (apply Z.ltb_lt; lia).
  done.
Qed.

(** Any other event that is not [null] or [undefined]. *)
Lemma dispatch_one parsers event s :
  event ≠ VNull → event ≠ VUndefined →
  (∀ recs, records_of event (store s) = Some recs → (length recs ≤ 1)%nat) →
  dispatch postMessage JSON_stringify parsers event s =
  finish ((parser ← processEvent parsers event;
           handle_result postMessage JSON_stringify parser)
            (State (store s) None (trace s))).
Proof.
  intros Hnull Hundef Hrecs. rewrite dispatch_run. unfold records_of in Hrecs.
  destruct (get_prop event "Records" (store s)) as [records|e] eqn:Hget.
  2: { destruct event as [| | | | | |l]; simpl in Hget; try done.
       destruct (store s !! l) as [[m0|a0]|]; done. }
  destruct (lodash.isArray records (store s)) eqn:Harr; [|done].
  destruct records as [| | | | | |lr]; try done. simpl in Harr.
  destruct (store s !! lr) as [[m0|recs]|] eqn:Hr; try done.
  assert (get_prop (VRef lr) "length" (store s) = Ok (VNum (Z.of_nat (length recs))))
    as ->.
  { simpl. by rewrite Hr. }
  unfold gt_1.
  assert ((1 <? Z.of_nat (length recs))%Z = false) as ->; [|done].
  apply Z.ltb_ge. specialize (Hrecs recs eq_refl). lia.
Qed.

Lemma finish_run r s1 :
  ∃ t, finish (r, s1) = (Ok tt, State (store s1) (lastParser s1) (trace s1 ++ t))
       ∧ entered t = [] ∧ posted t = []
       ∧ callbacks t = [match r with Ok _ => None | Raise e => Some e end].
Proof.
  destruct r as [[]|e]; simpl; by eexists.
Qed.

(** The dispatch changes no cell that the collaborators keep, and the
    events of a fan-out are new objects. *)
Lemma dispatch_frame parsers event s :
  ∃ h' lp' t,
    dispatch postMessage JSON_stringify parsers event s =
      (Ok tt, State h' lp' (trace s ++ t))
    ∧ ∀ l, is_Some (store s !! l) → collaborators_keep postMessage l parsers →
           h' !! l = store s !! l
           ∧ ∀ run, run ∈ entered t → run.1 ≠ VRef l ∨ run = (event, store s).
Proof.
  rewrite dispatch_run.
  destruct (get_prop event "Records" (store s)) as [records|e].
  - destruct (lodash.isArray records (store s) && _).
    + destruct (for_in_Records_frame parsers event records
                  (for_in_keys records (store s)) (State (store s) None (trace s)))
        as (r & h' & lp' & t & Hrun & Hc & Hf).
      cbn [store lastParser trace] in *. rewrite Hrun.
      destruct (finish_run r (State h' lp' (trace s ++ t))) as (t' & -> & He' & _ & _).
      cbn [store lastParser trace]. exists h', lp', (t ++ t').
      rewrite <- app_assoc. split; [done|].
      intros l Hl Hk. destruct (Hf l Hl Hk) as [Hl' Hin]. split; [done|].
      intros run. rewrite entered_app, He', app_nil_r. intros Hrun'. left.
      by apply Hin.
    + unfold mbind, M_bind.
      destruct (processEvent_shape parsers event (State (store s) None (trace s)))
        as (r1 & h1 & lp1 & t1 & Hrun1 & He1 & Hp1 & Hc1 & Hf1).
      cbn [store lastParser trace] in *. rewrite Hrun1.
      destruct (handle_result_shape r1
                  (State h1 lp1 (trace s ++ Enter event (store s) :: t1)))
        as (r2 & h2 & t2 & Hrun2 & He2 & Hc2 & Hf2 & _).
      cbn [store lastParser trace] in *. rewrite Hrun2.
      destruct (finish_run r2 (State h2 lp1
                  ((trace s ++ Enter event (store s) :: t1) ++ t2)))
        as (t' & -> & He' & _ & _).
      cbn [store lastParser trace].
      exists h2, lp1, ((Enter event (store s) :: t1) ++ t2 ++ t').
      split; [by rewrite <- !app_assoc|].
      intros l Hl [Hkp Hks].
      assert (H1 : h1 !! l = store s !! l) by by apply Hf1.
      split; [rewrite Hf2; [done|by rewrite H1|done]|].
      intros run. rewrite !entered_app. simpl. rewrite He1, He2, He'. simpl.
      intros ->%list_elem_of_singleton. by right.
  - destruct (finish_run (Raise e) (State (store s) None (trace s)))
      as (t' & -> & He' & _ & _).
    cbn [store lastParser trace]. exists (store s), None, t'. split; [done|].
    intros l Hl Hk. split; [done|]. rewrite He'. intros run Hin.
    by apply elem_of_nil in Hin.
Qed.

(** ** The first two statements and the decoding *)

Lemma prologue_trace event context s s0 :
  prologue JSON_stringify event context s = (Ok tt, s0) →
  ∃ text, trace s0 = trace s ++ [Console Log [AVal (VStr "Incoming Message:"); AVal text]]
          ∧ lastParser s0 = lastParser s.
Proof.
  unfold prologue, set_prop. unfold_M.
  destruct context as [| | | | | |lc]; try done.
  destruct (store s !! lc) as [[m|a]|]; simpl;
    (destruct (JSON_stringify event _) as [text|e]; simpl; [|done]);
    intros [= <-]; by exists text.
Qed.

Lemma ingest_run event s :
  ingest JSON_parse event s =
  match event with
  | VStr text =>
      match JSON_parse text (store s) with
      | (Ok decoded, h) => (Ok decoded, State h (lastParser s) (trace s))
      | (Raise _, h) =>
          (Ok event,
           State h (lastParser s)
             (trace s ++ [Console Error
                            [AVal (VStr ("Error parsing event JSON (continuing...): "
                                         +:+ text))]]))
      end
  | _ => (Ok event, s)
  end.
Proof.
  destruct event as [| | | | |text|]; try done.
  unfold ingest. unfold_M. simpl.
  by destruct (JSON_parse text (store s)) as [[decoded|e] h].
Qed.

Lemma handler_run parsers event context s s0 :
  prologue JSON_stringify event context s = (Ok tt, s0) →
  handler postMessage JSON_parse JSON_stringify parsers event context s =
  match ingest JSON_parse event s0 with
  | (Ok ev, s1) => dispatch postMessage JSON_stringify parsers ev s1
  | (Raise e, s1) => (Raise e, s1)
  end.
Proof.
  intros Hpro. unfold handler. unfold mbind, M_bind. by rewrite Hpro.
Qed.

(** ** Events that are not objects *)

(** C9 — a [null] or [undefined] event aborts the invocation.  When the
    event that reaches the [try] block is [null] or [undefined] (as after
    decoding the text [null]), reading [event.Records] raises a TypeError;
    the handler calls [callback] with that error, and it has made no
    dispatch and no call of the sink. *)
Theorem null_event_fails parsers event context s s0 ev s1 :
  prologue JSON_stringify event context s = (Ok tt, s0) →
  ingest JSON_parse event s0 = (Ok ev, s1) →
  ev = VNull ∨ ev = VUndefined →
  ∃ t,
    handler postMessage JSON_parse JSON_stringify parsers event context s =
      (Ok tt, State (store s1) None (trace s ++ t))
    ∧ callbacks t = [Some TypeError]
    ∧ posted t = []
    ∧ entered t = [].
Proof.
  intros Hpro Hin Hnull.
  rewrite (handler_run _ _ _ _ _ Hpro), Hin, (dispatch_null _ _ _ Hnull).
  destruct (prologue_trace _ _ _ _ Hpro) as (text & Ht0 & _).
  rewrite ingest_run in Hin.
  destruct event as [| | | | |raw|];
    try (injection Hin as <- <-; rewrite Ht0, <- app_assoc; by eexists).
  destruct (JSON_parse raw (store s0)) as [[decoded|e] h].
  - injection Hin as <- <-. simpl. rewrite Ht0, <- app_assoc. by eexists.
  - injection Hin as <- <-. by destruct Hnull.
Qed.

(** ** Decoding *)

(** C6 — decoding of the raw input.  After the first two statements, a
    string event is given to [JSON.parse]: when that succeeds the handler
    goes on with the decoded value as the event; when it raises, the
    handler logs the diagnostic of line 90 and goes on with the string
    itself as the event, without failing; an event that is not a string is
    used as it is. *)
Theorem ingest_then_dispatch parsers event context s s0 :
  prologue JSON_stringify event context s = (Ok tt, s0) →
  handler postMessage JSON_parse JSON_stringify parsers event context s =
  match event with
  | VStr text =>
      match JSON_parse text (store s0) with
      | (Ok decoded, h) =>
          dispatch postMessage JSON_stringify parsers decoded
            (State h (lastParser s0) (trace s0))
      | (Raise _, h) =>
          dispatch postMessage JSON_stringify parsers (VStr text)
            (State h (lastParser s0)
               (trace s0 ++ [Console Error
                               [AVal (VStr ("Error parsing event JSON (continuing...): "
                                            +:+ text))]]))
      end
  | _ => dispatch postMessage JSON_stringify parsers event s0
  end.
Proof.
  intros Hpro. rewrite (handler_run _ _ _ _ _ Hpro), ingest_run.
  destruct event as [| | | | |text|]; try done.
  by destruct (JSON_parse text (store s0)) as [[decoded|e] h].
Qed.

(** ** The fan-out *)

Lemma entered_segments parsers m rs segments :
  Forall2 (record_segment parsers m) rs segments →
  ∀ run, run ∈ entered (concat segments.*1) →
         ∃ record, record ∈ rs ∧ is_single_record_copy m record run.
Proof.
  induction 1 as [|record [sg failure] rs segments Hseg _ IH]; intros run; simpl.
  - by intros ?%elem_of_nil.
  - destruct Hseg as (run0 & t & r & h1 & handling & Hsg & Hcopy & _ & He & _ & _ & Hh).
    simpl in Hsg, Hh. subst sg.
    destruct (handled_quiet _ _ _ _ Hh) as [Heh _].
    rewrite entered_app. simpl. rewrite entered_app, He, Heh. simpl.
    intros [->|Hin]%elem_of_cons.
    + exists record. split; [by left|]. by destruct run0.
    + destruct (IH run Hin) as (record' & Hin' & Hcopy').
      exists record'. split; [by right|done].
Qed.

(** C10 — the fan-out does not change its input.  For an event object
    whose [Records] is an array of more than one element, and
    collaborators that do not write the event object or its array
    themselves, the event object and the array are after the whole
    dispatch what they were before it, and every dispatched event is an
    object other than the event: a copy of its fields in which [Records]
    is a new array of one of the records. *)
Theorem fan_out_keeps_event parsers le m lr recs s :
  store s !! le = Some (CObj m) →
  m !! "Records" = Some (VRef lr) →
  store s !! lr = Some (CArr recs) →
  1 < length recs →
  collaborators_keep postMessage le parsers →
  collaborators_keep postMessage lr parsers →
  ∃ h' lp' t,
    dispatch postMessage JSON_stringify parsers (VRef le) s =
      (Ok tt, State h' lp' (trace s ++ t))
    ∧ h' !! le = Some (CObj m)
    ∧ h' !! lr = Some (CArr recs)
    ∧ ∀ run, run ∈ entered t →
             run.1 ≠ VRef le
             ∧ ∃ record, record ∈ recs ∧ is_single_record_copy m record run.
Proof.
  intros He Hm Hr Hlen Hke Hkr.
  rewrite (dispatch_many _ _ _ _ _ _ He Hm Hr Hlen).
  destruct (for_in_Records_frame parsers (VRef le) (VRef lr) (seq 0 (length recs))
              (State (store s) None (trace s)))
    as (r & h' & lp' & t & Hrun & Hc & Hf).
  destruct (for_in_Records_copy parsers le m lr (seq 0 (length recs))
              (State (store s) None (trace s)) He Hm Hke)
    as (r' & h'' & lp'' & t' & Hrun' & _ & _ & Hcopy).
  cbn [store lastParser trace] in *. rewrite Hrun in Hrun'.
  assert (t' = t) as ->.
  { apply (f_equal (λ x, trace x.2)) in Hrun'. simpl in Hrun'.
    by apply app_inv_head in Hrun'. }
  destruct (Hcopy [] recs Hr Hkr eq_refl) as (segments & Ht & Hall & _).
  rewrite Hrun.
  destruct (finish_run r (State h' lp' (trace s ++ t))) as (t' & -> & He' & _ & _).
  cbn [store lastParser trace]. exists h', lp', (t ++ t').
  rewrite <- app_assoc.
  destruct (Hf le) as [Hle Hin]; [by rewrite He|done|].
  destruct (Hf lr) as [Hlr _]; [by rewrite Hr|done|].
  split_and!; [done|by rewrite Hle|by rewrite Hlr|].
  intros run. rewrite entered_app, He', app_nil_r. intros Hrun''.
  split; [by apply Hin|].
  rewrite Ht in Hrun''.
  destruct (entered_segments _ _ _ _ Hall run Hrun'') as (record & Hrec & Hcopy').
  exists record. split; [|done]. by eapply subseteq_take.
Qed.

(** C4 — multi-record fan-out (amended).  For an event object whose
    [Records] is an array of N > 1 elements, and collaborators that do not
    write the event object or its array themselves, the trace of the
    dispatch is made of one segment per record, in the order of the array,
    and of the final callback.  Each segment is a dispatch on a new object
    with the fields of the event except that [Records] is an array of that
    one record, followed by the handling of its result before the next
    record is dispatched: a message is given to the sink, once, and
    nothing is given to the sink for [null] or [undefined].  When
    [callback] gets no error there are N segments and none has failed.
    When it gets the error e, the last segment is the one that failed
    with e (the sink, or [JSON.stringify] on the message, raised e): no
    segment before it has failed, and the records after it are not
    dispatched.  For any other event that is not [null] or [undefined]
    there is one dispatch, on the event itself. *)
Theorem one_dispatch_per_record parsers event s :
  (∀ le m lr recs,
     event = VRef le →
     store s !! le = Some (CObj m) →
     m !! "Records" = Some (VRef lr) →
     store s !! lr = Some (CArr recs) →
     1 < length recs →
     collaborators_keep postMessage le parsers →
     collaborators_keep postMessage lr parsers →
     ∃ h' lp' segments c,
       dispatch postMessage JSON_stringify parsers event s =
         (Ok tt,
          State h' lp'
            (trace s ++ concat segments.*1
               ++ match c with
                  | None => [Callback None]
                  | Some e =>
                      [Console Log [AVal (VStr "ERROR:"); AExn e]; Callback (Some e)]
                  end))
       ∧ Forall2 (record_segment parsers m) (take (length segments) recs) segments
       ∧ match c with
         | None =>
             length segments = length recs ∧ Forall (λ sg, sg.2 = None) segments
         | Some e =>
             ∃ front sg, segments = front ++ [(sg, Some e)]
                         ∧ Forall (λ sg, sg.2 = None) front
         end)
  ∧ (event ≠ VNull → event ≠ VUndefined →
     (∀ recs, records_of event (store s) = Some recs → (length recs ≤ 1)%nat) →
     ∃ h' lp' t,
       dispatch postMessage JSON_stringify parsers event s =
         (Ok tt, State h' lp' (trace s ++ t))
       ∧ entered t = [(event, store s)]).
Proof.
  split.
  - intros le m lr recs -> He Hm Hr Hlen Hke Hkr.
    rewrite (dispatch_many _ _ _ _ _ _ He Hm Hr Hlen).
    destruct (for_in_Records_copy parsers le m lr (seq 0 (length recs))
                (State (store s) None (trace s)) He Hm Hke)
      as (r & h' & lp' & t & Hrun & Hc & _ & Hcopy).
    cbn [store lastParser trace] in *. rewrite Hrun.
    destruct (Hcopy [] recs Hr Hkr eq_refl) as (segments & -> & Hall & Hend).
    destruct r as [[]|e]; simpl.
    + exists h', lp', segments, None. by rewrite <- app_assoc.
    + exists h', lp', segments, (Some e). by rewrite <- app_assoc.
  - intros Hnull Hundef Hone. rewrite (dispatch_one _ _ _ Hnull Hundef Hone).
    unfold mbind, M_bind.
    destruct (processEvent_shape parsers event (State (store s) None (trace s)))
      as (r1 & h1 & lp1 & t1 & Hrun1 & He1 & Hp1 & Hc1 & Hf1).
    cbn [store lastParser trace] in *. rewrite Hrun1.
    destruct (handle_result_shape r1
                (State h1 lp1 (trace s ++ Enter event (store s) :: t1)))
      as (r2 & h2 & t2 & Hrun2 & He2 & Hc2 & Hf2 & _).
    cbn [store lastParser trace] in *. rewrite Hrun2.
    destruct (finish_run r2 (State h2 lp1
                ((trace s ++ Enter event (store s) :: t1) ++ t2)))
      as (t' & -> & He' & _ & _).
    cbn [store lastParser trace].
    exists h2, lp1, ((Enter event (store s) :: t1) ++ t2 ++ t').
    split; [by rewrite <- !app_assoc|].
    rewrite !entered_app. simpl. by rewrite He1, He2, He'.
Qed.

(** ** Failure of the invocation *)

Lemma many_or_one event h :
  (∃ le m lr recs, event = VRef le ∧ h !! le = Some (CObj m)
                   ∧ m !! "Records" = Some (VRef lr) ∧ h !! lr = Some (CArr recs)
                   ∧ 1 < length recs)
  ∨ (∀ recs, records_of event h = Some recs → (length recs ≤ 1)%nat).
Proof.
  unfold records_of.
  destruct event as [| | | | |text|le]; simpl; try (right; by intros recs).
  destruct (h !! le) as [[m|a]|] eqn:He; simpl; try (right; by intros recs).
  destruct (m !! "Records") as [[| | | | | |lr]|] eqn:Hm; simpl;
    try (right; by intros recs).
  destruct (h !! lr) as [[m0|recs]|] eqn:Hr; try (right; by intros recs').
  destruct (decide (1 < length recs)) as [Hlen|Hlen].
  - left. by exists le, m, lr, recs.
  - right. intros recs' [= <-]. lia.
Qed.

(** With a [JSON.stringify] that does not raise on the messages of the
    chain, a delivery ends with an error only when the sink raised it. *)
Lemma delivery_outcome_sink parsers r t :
  serialisable parsers →
  delivery_outcome parsers r t →
  match r with
  | Ok _ => sink_errors t = []
  | Raise e => sink_errors t = [e]
  end.
Proof.
  intros Hser. destruct r as [u|e]; [done|]. intros [Hsink|[_ (V & h & Hp & Hraise)]].
  - done.
  - destruct (Hser V h Hp) as [text Htext]. congruence.
Qed.

Lemma dispatch_outcome parsers event s :
  event ≠ VNull → event ≠ VUndefined →
  (∀ le, event = VRef le → collaborators_keep postMessage le parsers) →
  ∃ h' lp' r t t',
    dispatch postMessage JSON_stringify parsers event s =
      (Ok tt, State h' lp' (trace s ++ t ++ t'))
    ∧ callbacks t = [] ∧ delivery_outcome parsers r t
    ∧ posted t' = []
    ∧ callbacks t' = [match r with Ok _ => None | Raise e => Some e end].
Proof.
  intros Hnull Hundef Hkeep.
  destruct (many_or_one event (store s))
    as [(le & m & lr & recs & -> & He & Hm & Hr & Hlen)|Hone].
  - rewrite (dispatch_many _ _ _ _ _ _ He Hm Hr Hlen).
    destruct (for_in_Records_copy parsers le m lr (seq 0 (length recs))
                (State (store s) None (trace s)) He Hm (Hkeep le eq_refl))
      as (r & h' & lp' & t & Hrun & Hc & Hout & _).
    cbn [store lastParser trace] in *. rewrite Hrun.
    destruct (finish_run r (State h' lp' (trace s ++ t))) as (t' & -> & _ & Hp' & Hc').
    cbn [store lastParser trace]. exists h', lp', r, t, t'.
    by rewrite <- app_assoc.
  - rewrite (dispatch_one _ _ _ Hnull Hundef Hone).
    unfold mbind, M_bind.
    destruct (processEvent_shape parsers event (State (store s) None (trace s)))
      as (r1 & h1 & lp1 & t1 & Hrun1 & He1 & Hp1 & Hc1 & Hf1).
    cbn [store lastParser trace] in *. rewrite Hrun1.
    destruct (handle_result_shape r1
                (State h1 lp1 (trace s ++ Enter event (store s) :: t1)))
      as (r2 & h2 & t2 & Hrun2 & He2 & Hc2 & Hf2 & Hout).
    apply (handling_is_delivery _ _ _ _ _ _ _ Hrun1) in Hout.
    cbn [store lastParser trace] in *. rewrite Hrun2.
    destruct (finish_run r2 (State h2 lp1
                ((trace s ++ Enter event (store s) :: t1) ++ t2)))
      as (t' & -> & _ & Hp' & Hc').
    cbn [store lastParser trace].
    exists h2, lp1, r2, ((Enter event (store s) :: t1) ++ t2), t'.
    split_and!; [by rewrite <- !app_assoc| | |done|done].
    + rewrite callbacks_app. simpl. by rewrite Hc1, Hc2.
    + apply delivery_outcome_after; [|done].
      change (Enter event (store s) :: t1) with ([Enter event (store s)] ++ t1).
      rewrite sink_errors_app. by rewrite (sink_errors_no_post t1 Hp1).
Qed.

(** C7 — failure of the invocation (amended).  When the first two
    statements of the handler return (the context is an object and
    [JSON.stringify] does not raise on the raw input), the event that
    reaches the [try] block is not [null] or [undefined], the
    collaborators do not write the event object themselves, and
    [JSON.stringify] does not raise on the messages that the parsers of
    the chain return, the handler calls [callback] once: without an error
    when no call of the sink raised, and with the error of the sink when a
    call of the sink raised (there is then exactly one such call).  A
    text that is not JSON, the faults of the parsers, an empty message and
    the end of the chain do not make the invocation fail. *)
Theorem failure_is_sink_failure parsers event context s s0 ev s1 :
  prologue JSON_stringify event context s = (Ok tt, s0) →
  ingest JSON_parse event s0 = (Ok ev, s1) →
  ev ≠ VNull → ev ≠ VUndefined →
  (∀ le, ev = VRef le → collaborators_keep postMessage le parsers) →
  serialisable parsers →
  ∃ h' lp' t,
    handler postMessage JSON_parse JSON_stringify parsers event context s =
      (Ok tt, State h' lp' (trace s ++ t))
    ∧ ((sink_errors t = [] ∧ callbacks t = [None])
       ∨ ∃ e, sink_errors t = [e] ∧ callbacks t = [Some e]).
Proof.
  intros Hpro Hin Hnull Hundef Hkeep Hser.
  rewrite (handler_run _ _ _ _ _ Hpro), Hin.
  destruct (dispatch_outcome parsers ev s1 Hnull Hundef Hkeep)
    as (h' & lp' & r & t & t' & -> & Hc & Hout & Hp' & Hc').
  apply (delivery_outcome_sink _ _ _ Hser) in Hout.
  destruct (prologue_trace _ _ _ _ Hpro) as (text & Ht0 & _).
  assert (∃ t1, trace s1 = trace s0 ++ t1 ∧ sink_errors t1 = [] ∧ callbacks t1 = [])
    as (t1 & Ht1 & Hs1 & Hc1).
  { rewrite ingest_run in Hin.
    destruct event as [| | | | |raw|];
      try (injection Hin as <- <-; exists []; by rewrite app_nil_r).
    destruct (JSON_parse raw (store s0)) as [[decoded|e] h]; injection Hin as <- <-.
    - exists []. by rewrite app_nil_r.
    - by eexists. }
  rewrite Ht1, Ht0, <- !app_assoc. eexists _, _, _. split; [done|].
  rewrite !sink_errors_app, !callbacks_app, Hs1, Hc1, Hc, Hc'.
  rewrite (sink_errors_no_post t' Hp'). simpl. rewrite app_nil_r.
  destruct r as [u|e]; [left|right; exists e]; by rewrite Hout.
Qed.

(** * Further properties of the dispatch *)

(** ** What a result of [processEvent] says about the parsers *)

Lemma pass_over_one name P event h h1 :
  pass_over [(name, P)] event h = Some h1 →
  ∀ pre, pass_over ((name, P) :: pre) event h = pass_over pre event h1.
Proof.
  simpl. intros Hpass pre.
  destruct (construct P h) as [[p0|e0] h0]; [|by injection Hpass as ->].
  destruct (parse P p0 event h0) as [[V0|e0] h0']; [|by injection Hpass as ->].
  destruct (truthy V0); [|by injection Hpass as ->].
  destruct (is_true V0 || lodash.isEmpty V0 h0'); [done|].
  destruct (set_fields P p0 V0 name h0') as [[]|e0]; [done|].
  by injection Hpass as ->.
Qed.

Lemma loop_result parsers event : ∀ s,
  ∃ r s', processEvent_loop parsers event s = (Ok r, s')
          ∧ result_reads parsers event (store s) (lastParser s) r s'.
Proof.
  induction parsers as [|[name P] rest IH]; intros s.
  - exists Undefined, s. by split.
  - rewrite loop_cons, try_parser_run.
    assert (Hnext : ∀ h1 t1,
               pass_over [(name, P)] event (store s) = Some h1 →
               ∃ r s', processEvent_loop rest event (State h1 (Some name) t1) = (Ok r, s')
                       ∧ result_reads ((name, P) :: rest) event (store s)
                           (lastParser s) r s').
    { intros h1 t1 Hpass.
      destruct (IH (State h1 (Some name) t1)) as (r & s' & Hrun & Hreads).
      exists r, s'. split; [done|].
      destruct r as [parser V name'| |]; simpl in Hreads.
      - destruct Hreads as (pre & P' & post & h1' & h2' & -> & Hp & Hrest).
        exists ((name, P) :: pre), P', post, h1', h2'. split; [done|].
        split; [|done]. by rewrite (pass_over_one _ _ _ _ _ Hpass).
      - destruct Hreads as (pre & name' & P' & post & h1' & p' & h2' & V & -> & Hp & Hrest).
        exists ((name, P) :: pre), name', P', post, h1', p', h2', V. split; [done|].
        split; [|done]. by rewrite (pass_over_one _ _ _ _ _ Hpass).
      - destruct Hreads as [Hp Hl]. split.
        + by rewrite (pass_over_one _ _ _ _ _ Hpass).
        + by rewrite last_tried_cons. }
    destruct (construct P (store s)) as [[parser|e] h1] eqn:Hnew.
    + destruct (parse P parser event h1) as [[V|e] h2] eqn:Hparse.
      * destruct (truthy V) eqn:Htruthy.
        -- destruct (is_true V || lodash.isEmpty V h2) eqn:Hempty.
           ++ eexists Null, _. split; [done|]. simpl.
              by exists [], name, P, rest, (store s), parser, h1, V.
           ++ destruct (set_fields P parser V name h2) as [[]|e] eqn:Hset.
              ** eexists (Parser parser V name), _. split; [done|]. simpl.
                 apply orb_false_elim in Hempty as [Htrue Hempty].
                 by exists [], P, rest, (store s), h1.
              ** apply Hnext. simpl. by rewrite Hnew, Hparse, Htruthy, Hempty, Hset.
        -- apply Hnext. simpl. by rewrite Hnew, Hparse, Htruthy.
      * apply Hnext. simpl. by rewrite Hnew, Hparse.
    + apply Hnext. simpl. by rewrite Hnew.
Qed.

Lemma processEvent_reads_aux parsers event s :
  ∃ r s', processEvent parsers event s = (Ok r, s')
          ∧ result_reads parsers event (store s) (lastParser s) r s'.
Proof.
  rewrite processEvent_run.
  apply (loop_result parsers event
           (State (store s) (lastParser s) (trace s ++ [Enter event (store s)]))).
Qed.

(** The result of [processEvent] is always a value, and it tells what the
    parsers did.  A parser is passed over when it declines (a falsy
    value) or faults: its constructor or its [parse] raises, or its
    instance refuses an assignment of lines 62-63 after a message that is
    not empty.  A parser is returned only when the parsers before it were
    passed over, it returned the message, which is then not [true] and not
    empty, and its instance took the two assignments; [null] only when
    the parsers before were passed over and the parser returned [true] or
    an empty value; [undefined] only when every parser was passed over.
    In the first two cases [lastParser] is the name of that parser, in
    the last the name of the last parser (and what it was before, for an
    empty chain). *)
Theorem processEvent_reads parsers event s :
  ∃ r s', processEvent parsers event s = (Ok r, s')
          ∧ result_reads parsers event (store s) (lastParser s) r s'.
Proof. apply processEvent_reads_aux. Qed.

Lemma not_empty_shape V h :
  lodash.isEmpty V h = false →
  (∃ text, V = VStr text ∧ text ≠ "")
  ∨ (∃ l m, V = VRef l ∧ h !! l = Some (CObj m) ∧ m ≠ ∅)
  ∨ (∃ l a, V = VRef l ∧ h !! l = Some (CArr a) ∧ a ≠ []).
Proof.
  destruct V as [| | | | |text|l]; simpl; try done.
  - intros Hne. left. exists text. split; [done|]. intros ->. done.
  - destruct (h !! l) as [[m|a]|] eqn:Hl; try done.
    + intros Hne%bool_decide_eq_false. right. left. by exists l, m.
    + intros Hne%bool_decide_eq_false. right. right. by exists l, a.
Qed.

(** Line 58, "never send empty message": a message that [processEvent]
    returns is a string that is not empty, or an object with a property,
    or an array with an element; never a boolean, a number, [null] or
    [undefined], and never an empty object or array. *)
Theorem returned_message_is_not_empty parsers event s :
  ∃ r s', processEvent parsers event s = (Ok r, s')
    ∧ ∀ parser V name, r = Parser parser V name →
        (∃ text, V = VStr text ∧ text ≠ "")
        ∨ (∃ l m, V = VRef l ∧ store s' !! l = Some (CObj m) ∧ m ≠ ∅)
        ∨ (∃ l a, V = VRef l ∧ store s' !! l = Some (CArr a) ∧ a ≠ []).
Proof.
  rewrite processEvent_run.
  destruct (loop_result parsers event
              (State (store s) (lastParser s) (trace s ++ [Enter event (store s)])))
    as (r & s' & Hrun & Hreads).
  exists r, s'. split; [done|]. intros parser V name ->. simpl in Hreads.
  destruct Hreads as (pre & P & post & h1 & h2 & _ & _ & _ & _ & _ & Hempty & _).
  by apply not_empty_shape.
Qed.

(** ** The callback *)

Lemma delivery_is_run_outcome parsers event h r t :
  delivery_outcome parsers r t → run_outcome parsers event h r t.
Proof.
  destruct r as [u|e]; [done|]. intros [Hs|Hs]; [by left|right; by left].
Qed.

Lemma run_outcome_after parsers event h t1 t2 r :
  sink_errors t1 = [] → run_outcome parsers event h r t2 →
  run_outcome parsers event h r (t1 ++ t2).
Proof.
  intros H1. destruct r; simpl; rewrite sink_errors_app, H1; done.
Qed.

Lemma get_prop_raises v k h e :
  get_prop v k h = Raise e → e = TypeError ∧ (v = VNull ∨ v = VUndefined).
Proof.
  destruct v as [| | | | |text|l]; simpl; try done;
    try (intros [= <-]; split; [done|by auto]).
  destruct (h !! l) as [[m|a]|]; done.
Qed.

Lemma get_index_raises v i h e : get_index v i h = Raise e → e = TypeError.
Proof.
  destruct v as [| | | | |text|l]; simpl; try done; try by intros [= <-].
  destruct (h !! l) as [[m|a]|]; done.
Qed.

Lemma single_record_event_raises event i s e s' :
  single_record_event event i s = (Raise e, s') → e = TypeError.
Proof.
  unfold single_record_event, lodash.assign. unfold_M. cbv beta. cbn [store lastParser trace].
  destruct (get_prop event "Records" _) as [records|e0] eqn:Hget.
  - destruct (get_index records i _) as [record|e1] eqn:Hidx.
    + cbn [store]. by destruct (_ !! _) as [[m|a]|].
    + intros [= <- _]. by eapply get_index_raises.
  - intros [= <- _]. by eapply get_prop_raises.
Qed.

(** The body of the loop of a fan-out that started in the store [h0]. *)
Lemma handle_record_outcome parsers le m lr recs h0 i s :
  h0 !! le = Some (CObj m) → m !! "Records" = Some (VRef lr) →
  h0 !! lr = Some (CArr recs) → 1 < length recs →
  (collaborators_keep postMessage le parsers → store s !! le = Some (CObj m)) →
  ∃ r h' lp' t,
    handle_record postMessage JSON_stringify parsers (VRef le) i s =
      (r, State h' lp' (trace s ++ t))
    ∧ callbacks t = []
    ∧ (collaborators_keep postMessage le parsers → h' !! le = Some (CObj m))
    ∧ run_outcome parsers (VRef le) h0 r t.
Proof.
  intros H0e Hm H0r Hlen Hinv.
  destruct (handle_record_shape parsers (VRef le) i s)
    as (r & h' & lp' & t & Hrun & Hc & Hf & _).
  exists r, h', lp', t. split_and!; [done|done| |].
  { intros Hkeep. rewrite Hf; [by apply Hinv|by rewrite Hinv|done]. }
  revert Hrun. unfold handle_record. unfold mbind, M_bind.
  destruct (single_record_event_frame (VRef le) i s) as (r0 & h1 & Hrun0 & _ & _).
  rewrite Hrun0. destruct r0 as [ev|e].
  - destruct (processEvent_shape parsers ev (State h1 (lastParser s) (trace s)))
      as (r1 & h2 & lp1 & t1 & Hrun1 & He1 & Hp1 & Hc1 & _).
    cbn [store lastParser trace] in *. rewrite Hrun1.
    destruct (handle_record_result_shape i r1
                (State h2 lp1 (trace s ++ Enter ev h1 :: t1)))
      as (r2 & h3 & t2 & Hrun2 & He2 & Hc2 & _ & Hout).
    apply (handling_is_delivery _ _ _ _ _ _ _ Hrun1) in Hout.
    cbn [store lastParser trace] in *. rewrite Hrun2, <- app_assoc.
    intros Heq. injection Heq as <- _ _ Ht. apply app_inv_head in Ht as <-.
    change (Enter ev h1 :: t1 ++ t2) with ((Enter ev h1 :: t1) ++ t2).
    apply run_outcome_after; [|by apply delivery_is_run_outcome].
    by apply sink_errors_no_post.
  - intros Heq. injection Heq as <- _ _ Ht.
    rewrite <- (app_nil_r (trace s)) in Ht at 1. apply app_inv_head in Ht as <-.
    right. right. split; [done|].
    split; [by eapply single_record_event_raises|].
    right. right. exists le, m, lr, recs. split_and!; try done.
    intros Hkeep.
    destruct (single_record_event_copy le m lr i s (Hinv Hkeep) Hm)
      as (d & a & h'' & record & Hcopy & _).
    by rewrite Hcopy in Hrun0.
Qed.

Lemma for_in_Records_outcome parsers le m lr recs h0 keys : ∀ s,
  h0 !! le = Some (CObj m) → m !! "Records" = Some (VRef lr) →
  h0 !! lr = Some (CArr recs) → 1 < length recs →
  (collaborators_keep postMessage le parsers → store s !! le = Some (CObj m)) →
  ∃ r h' lp' t,
    for_in_Records postMessage JSON_stringify keys (VRef lr) parsers (VRef le) s =
      (r, State h' lp' (trace s ++ t))
    ∧ callbacks t = [] ∧ run_outcome parsers (VRef le) h0 r t.
Proof.
  induction keys as [|i keys IH]; intros s H0e Hm H0r Hlen Hinv.
  - exists (Ok tt), (store s), (lastParser s), []. rewrite app_nil_r.
    split_and!; [by destruct s|done|done].
  - rewrite for_in_Records_cons.
    destruct (has_index (VRef lr) i (store s)); [|by apply IH].
    destruct (handle_record_outcome parsers le m lr recs h0 i s H0e Hm H0r Hlen Hinv)
      as (r1 & h1 & lp1 & t1 & -> & Hc1 & Hinv1 & Hout1).
    destruct r1 as [[]|e].
    + destruct (IH (State h1 lp1 (trace s ++ t1)) H0e Hm H0r Hlen Hinv1)
        as (r2 & h2 & lp2 & t2 & -> & Hc2 & Hout2).
      cbn [store lastParser trace]. exists r2, h2, lp2, (t1 ++ t2).
      rewrite callbacks_app, Hc1, Hc2, app_assoc.
      split_and!; [done|done|]. by apply run_outcome_after.
    + by exists (Raise e), h1, lp1, t1.
Qed.

(** Every run of [dispatch]: the work of the [try] block, then the end. *)
Lemma dispatch_outcome_any parsers event s :
  ∃ h' lp' r t,
    dispatch postMessage JSON_stringify parsers event s =
      finish (r, State h' lp' (trace s ++ t))
    ∧ callbacks t = [] ∧ run_outcome parsers event (store s) r t.
Proof.
  destruct (get_prop event "Records" (store s)) as [records|e] eqn:Hget.
  - assert (Hnull : event ≠ VNull) by (by intros ->).
    assert (Hundef : event ≠ VUndefined) by (by intros ->).
    destruct (many_or_one event (store s))
      as [(le & m & lr & recs & -> & He & Hm & Hr & Hlen)|Hone].
    + rewrite (dispatch_many _ _ _ _ _ _ He Hm Hr Hlen).
      destruct (for_in_Records_outcome parsers le m lr recs (store s)
                  (seq 0 (length recs)) (State (store s) None (trace s))
                  He Hm Hr Hlen (λ _, He))
        as (r & h' & lp' & t & Hrun & Hc & Hout).
      cbn [store lastParser trace] in *. rewrite Hrun. by exists h', lp', r, t.
    + rewrite (dispatch_one _ _ _ Hnull Hundef Hone). unfold mbind, M_bind.
      destruct (processEvent_shape parsers event (State (store s) None (trace s)))
        as (r1 & h1 & lp1 & t1 & Hrun1 & He1 & Hp1 & Hc1 & _).
      cbn [store lastParser trace] in *. rewrite Hrun1.
      destruct (handle_result_shape r1
                  (State h1 lp1 (trace s ++ Enter event (store s) :: t1)))
        as (r2 & h2 & t2 & Hrun2 & He2 & Hc2 & _ & Hout).
      apply (handling_is_delivery _ _ _ _ _ _ _ Hrun1) in Hout.
      cbn [store lastParser trace] in *. rewrite Hrun2.
      assert (Hcb : callbacks ((Enter event (store s) :: t1) ++ t2) = []).
      { rewrite callbacks_app. simpl. by rewrite Hc1, Hc2. }
      exists h2, lp1, r2, ((Enter event (store s) :: t1) ++ t2).
      split_and!; [by rewrite <- !app_assoc|done|].
      apply run_outcome_after; [|by apply delivery_is_run_outcome].
      by apply sink_errors_no_post.
  - rewrite dispatch_run, Hget.
    exists (store s), None, (Raise e), []. rewrite app_nil_r.
    split_and!; [done|done|].
    destruct (get_prop_raises _ _ _ _ Hget) as [-> Hev].
    right. right. split; [done|]. split; [done|].
    destruct Hev as [->| ->]; [by left|right; by left].
Qed.

Lemma dispatch_calls_back_once_aux parsers event s :
  ∃ h' lp' t c,
    dispatch postMessage JSON_stringify parsers event s =
      (Ok tt, State h' lp' (trace s ++ t ++ [Callback c]))
    ∧ callbacks t = [].
Proof.
  destruct (dispatch_outcome_any parsers event s)
    as (h' & lp' & r & t & -> & Hc & _).
  destruct r as [[]|e]; simpl.
  - exists h', lp', t, None. by rewrite <- app_assoc.
  - exists h', lp', (t ++ [Console Log [AVal (VStr "ERROR:"); AExn e]]), (Some e).
    rewrite callbacks_app, Hc. split; [|done]. by rewrite <- !app_assoc.
Qed.

(** Whatever the event and whatever the collaborators do, [dispatch]
    returns normally and calls [callback] exactly once, as its last
    action. *)
Theorem dispatch_calls_back_once parsers event s :
  ∃ h' lp' t c,
    dispatch postMessage JSON_stringify parsers event s =
      (Ok tt, State h' lp' (trace s ++ t ++ [Callback c]))
    ∧ callbacks t = [].
Proof. apply dispatch_calls_back_once_aux. Qed.


(** ** Before the [try] block *)

(** Lines 82-83 are outside the [try]: when the context is not an object
    (strict mode: the assignment raises a TypeError), or when
    [JSON.stringify] raises on the event, the handler raises that error
    itself; it has logged nothing, dispatched nothing, and [callback] is
    not called. *)
Theorem handler_raises_before_try parsers event context s :
  ((∀ l, context ≠ VRef l) →
   handler postMessage JSON_parse JSON_stringify parsers event context s =
     (Raise TypeError, s))
  ∧ (∀ l e,
       context = VRef l →
       JSON_stringify event
         (store (set_prop context "callbackWaitsForEmptyEventLoop" (VBool false) s).2)
         = Raise e →
       ∃ h, handler postMessage JSON_parse JSON_stringify parsers event context s =
              (Raise e, State h (lastParser s) (trace s))).
Proof.
  split.
  - intros Hctx. unfold handler, prologue, set_prop. unfold_M.
    destruct context as [| | | | | |l]; try done. by destruct (Hctx l).
  - intros l e -> Hraise. revert Hraise.
    unfold handler, prologue, set_prop. unfold_M.
    destruct (store s !! l) as [[m|a]|]; cbn [store lastParser trace snd];
      intros ->; [by eexists|exists (store s); by destruct s..].
Qed.

(** Once lines 82-83 have run, the handler ends normally and calls
    [callback] exactly once, as its last action, whatever the event is
    and whatever [JSON.parse], the parsers and the sink do. *)
Theorem handler_calls_back_once parsers event context s s0 :
  prologue JSON_stringify event context s = (Ok tt, s0) →
  ∃ h' lp' t c,
    handler postMessage JSON_parse JSON_stringify parsers event context s =
      (Ok tt, State h' lp' (trace s ++ t ++ [Callback c]))
    ∧ callbacks t = [].
Proof.
  intros Hpro. rewrite (handler_run _ _ _ _ _ Hpro).
  destruct (prologue_trace _ _ _ _ Hpro) as (text & Ht0 & _).
  assert (∃ ev s1 t1, ingest JSON_parse event s0 = (Ok ev, s1)
                      ∧ trace s1 = trace s0 ++ t1 ∧ callbacks t1 = [])
    as (ev & s1 & t1 & -> & Ht1 & Hc1).
  { rewrite ingest_run.
    destruct event as [| | | | |raw|];
      try (eexists _, _, []; rewrite app_nil_r; by split_and!).
    destruct (JSON_parse raw (store s0)) as [[decoded|e] h].
    - eexists _, _, []. rewrite app_nil_r. by split_and!.
    - eexists _, _, _. by split_and!. }
  destruct (dispatch_calls_back_once_aux parsers ev s1)
    as (h' & lp' & t & c & -> & Hc).
  exists h', lp',
    (([Console Log [AVal (VStr "Incoming Message:"); AVal text]] ++ t1) ++ t), c.
  split.
  - by rewrite Ht1, Ht0, <- !app_assoc.
  - by rewrite !callbacks_app, Hc1, Hc.
Qed.

(** The flag of line 82 is still set when [callback] is called: with a
    context object that the collaborators do not write, at the end of the
    handler [context.callbackWaitsForEmptyEventLoop] is [false] and the
    other properties of the context are what they were. *)
Theorem context_flag_at_callback parsers event lc m s s0 :
  store s !! lc = Some (CObj m) →
  prologue JSON_stringify event (VRef lc) s = (Ok tt, s0) →
  collaborators_keep postMessage lc parsers →
  (∀ text, keeps_cell lc (JSON_parse text)) →
  ∃ h' lp' t c,
    handler postMessage JSON_parse JSON_stringify parsers event (VRef lc) s =
      (Ok tt, State h' lp' (trace s ++ t ++ [Callback c]))
    ∧ h' !! lc = Some (CObj (<["callbackWaitsForEmptyEventLoop" := VBool false]> m)).
Proof.
  intros Hlc Hpro Hkeep Hparse.
  rewrite (handler_run _ _ _ _ _ Hpro).
  destruct (prologue_trace _ _ _ _ Hpro) as (text & Ht0 & _).
  assert (H0 : store s0 !! lc
               = Some (CObj (<["callbackWaitsForEmptyEventLoop" := VBool false]> m))).
  { revert Hpro. unfold prologue, set_prop. unfold_M. rewrite Hlc.
    cbn [store lastParser trace].
    destruct (JSON_stringify event _) as [text'|e]; [|done].
    intros [= <-]. cbn [store]. apply lookup_insert_eq. }
  assert (∃ ev s1 t1, ingest JSON_parse event s0 = (Ok ev, s1)
                      ∧ store s1 !! lc = store s0 !! lc
                      ∧ trace s1 = trace s0 ++ t1)
    as (ev & s1 & t1 & -> & H1 & Ht1).
  { rewrite ingest_run.
    destruct event as [| | | | |raw|];
      try (eexists _, _, []; rewrite app_nil_r; by split_and!).
    pose proof (Hparse raw (store s0)) as Hk. rewrite H0 in Hk.
    destruct (JSON_parse raw (store s0)) as [[decoded|e] h].
    - eexists _, _, []. rewrite app_nil_r. split_and!; [done| |done].
      simpl. rewrite H0. by apply Hk.
    - eexists _, _, _. split_and!; [done| |done].
      simpl. rewrite H0. by apply Hk. }
  destruct (dispatch_frame parsers ev s1) as (h' & lp' & t & Hrun & Hf).
  destruct (dispatch_calls_back_once_aux parsers ev s1)
    as (h'' & lp'' & t' & c & Hrun' & _).
  rewrite Hrun in Hrun'. rewrite Hrun.
  assert (t = t' ++ [Callback c]) as ->.
  { apply (f_equal (λ x, trace x.2)) in Hrun'. simpl in Hrun'.
    by apply app_inv_head in Hrun'. }
  destruct (Hf lc) as [Hlc' _]; [by rewrite H1, H0|done|].
  exists h', lp', (([Console Log [AVal (VStr "Incoming Message:"); AVal text]] ++ t1) ++ t'), c.
  split; [|by rewrite Hlc', H1].
  by rewrite Ht1, Ht0, <- !app_assoc.
Qed.

(** ** The diagnostics of an event without a message *)

Lemma lastParser_truthy_named name : name ≠ "" → lastParser_truthy (Some name) = true.
Proof.
  intros Hne. simpl. destruct (String.eqb_spec name ""); done.
Qed.

(** With a chain that is not empty and whose names are not empty, a
    single event for which [processEvent] returns no parser (a truthy but
    empty message, or no match at all) always gets one and the same
    diagnostic: the text of line 127, in which [handler.parserName] is
    undefined.  The name of the parser is not logged, and line 130 ("No
    parser matched event") is never reached. *)
Theorem unmatched_is_logged_as_ignored parsers event s r s1 :
  parsers ≠ [] →
  Forall (λ np, np.1 ≠ "") parsers →
  event ≠ VNull → event ≠ VUndefined →
  (∀ recs, records_of event (store s) = Some recs → (length recs ≤ 1)%nat) →
  processEvent parsers event (State (store s) None (trace s)) = (Ok r, s1) →
  (∀ parser V name, r ≠ Parser parser V name) →
  dispatch postMessage JSON_stringify parsers event s =
    (Ok tt,
     State (store s1) (lastParser s1)
       (trace s1 ++ [Console Error
                       [AVal (VStr "Parser[undefined] is force-ignoring event")];
                     Callback None])).
Proof.
  intros Hne Hnamed Hnull Hundef Hone Hrun Hr.
  rewrite (dispatch_one _ _ _ Hnull Hundef Hone). unfold mbind, M_bind. rewrite Hrun.
  assert (Htruthy : lastParser_truthy (lastParser s1) = true).
  { destruct (processEvent_reads_aux parsers event (State (store s) None (trace s)))
      as (r' & s1' & Hrun' & Hreads).
    rewrite Hrun in Hrun'. injection Hrun' as <- <-.
    destruct r as [parser V name| |]; simpl in Hreads.
    - by destruct (Hr parser V name).
    - destruct Hreads as (pre & name & P & post & h1 & p & h2 & V & -> & _ & _ & _ & _ & _ & ->).
      apply lastParser_truthy_named.
      apply Forall_app in Hnamed as [_ Hn]. by apply Forall_cons in Hn as [Hn _].
    - destruct Hreads as [_ ->]. unfold last_tried.
      destruct (last parsers) as [[name P]|] eqn:Hlast.
      + apply lastParser_truthy_named.
        apply last_Some in Hlast as [pre ->].
        apply Forall_app in Hnamed as [_ Hn]. by apply Forall_cons in Hn as [Hn _].
      + by apply last_None in Hlast. }
  destruct r as [parser V name| |]; [by destruct (Hr parser V name)| |];
    simpl; unfold_M; simpl; rewrite Htruthy; simpl; by rewrite <- app_assoc.
Qed.

(** With no parser at all, a single event is reported as not matched:
    nothing is sent, and the invocation succeeds. *)
Theorem empty_chain_matches_nothing event s :
  event ≠ VNull → event ≠ VUndefined →
  (∀ recs, records_of event (store s) = Some recs → (length recs ≤ 1)%nat) →
  dispatch postMessage JSON_stringify (@nil (string * classifier instance)) event s =
    (Ok tt,
     State (store s) None
       (trace s ++ [Enter event (store s);
                    Console Log [AVal (VStr "No parser matched event")];
                    Callback None])).
Proof.
  intros Hnull Hundef Hone. rewrite (dispatch_one _ _ _ Hnull Hundef Hone).
  unfold processEvent. unfold_M. simpl. by rewrite <- !app_assoc.
Qed.

(** ** The delivery of a single event *)


(** The message is serialised for the log before it is sent: when
    [JSON.stringify] raises on the message of a single event, the sink is
    not called, and [callback] gets that error. *)
Theorem unserialisable_message_is_not_sent parsers event s parser V name s1 e :
  event ≠ VNull → event ≠ VUndefined →
  (∀ recs, records_of event (store s) = Some recs → (length recs ≤ 1)%nat) →
  processEvent parsers event (State (store s) None (trace s))
    = (Ok (Parser parser V name), s1) →
  JSON_stringify V (store s1) = Raise e →
  dispatch postMessage JSON_stringify parsers event s =
    (Ok tt,
     State (store s1) (lastParser s1)
       (trace s1 ++ [Console Log [AVal (VStr "ERROR:"); AExn e]; Callback (Some e)])).
Proof.
  intros Hnull Hundef Hone Hrun Htext.
  rewrite (dispatch_one _ _ _ Hnull Hundef Hone). unfold mbind, M_bind. rewrite Hrun.
  simpl. unfold_M. simpl. by rewrite Htext.
Qed.

(** ** What the dispatch writes *)

(** For every event, [dispatch] writes only objects that it creates: an
    object of the store that the collaborators do not write is after the
    dispatch what it was before. *)
Theorem dispatch_writes_only_new_objects parsers event s l c :
  store s !! l = Some c →
  collaborators_keep postMessage l parsers →
  store (dispatch postMessage JSON_stringify parsers event s).2 !! l = Some c.
Proof.
  intros Hl Hkeep.
  destruct (dispatch_frame parsers event s) as (h' & lp' & t & -> & Hf).
  destruct (Hf l) as [Hl' _]; [by rewrite Hl|done|]. simpl. by rewrite Hl'.
Qed.


(** * The constructor *)

Lemma array_set_next {A} (xs : list A) (x : A) i k :
  i = length xs →
  array_set i x ((Some <$> xs) ++ None :: replicate k None)
  = (Some <$> (xs ++ [x])) ++ replicate k None.
Proof.
  intros ->. unfold array_set. rewrite decide_True.
  - rewrite insert_app_r_alt; rewrite length_fmap; [|lia].
    rewrite Nat.sub_diag, fmap_app, <-app_assoc. done.
  - rewrite length_app, length_fmap. simpl. lia.
Qed.

Lemma each_from_fills (l : list (string * classifier instance)) :
  ∀ (done_names : list string) (done_classes : list (classifier instance)),
    length done_names = length done_classes →
    each_from (length done_names) l
      (λ o i this, (array_set i o.1 this.1, array_set i o.2 this.2))
      ((Some <$> done_names) ++ replicate (length l) None,
       (Some <$> done_classes) ++ replicate (length l) None)
    = (Some <$> (done_names ++ l.*1), Some <$> (done_classes ++ l.*2)).
Proof.
  induction l as [|[name P] l IH]; intros ns cs Hlen; simpl.
  - by rewrite !app_nil_r.
  - rewrite (array_set_next ns), (array_set_next cs) by done.
    replace (S (length ns)) with (length (ns ++ [name]))
      by (rewrite length_app; simpl; lia).
    rewrite IH by (rewrite !length_app; simpl; lia).
    by rewrite <-!app_assoc.
Qed.

Lemma constructor_fields (l : list (string * classifier instance)) :
  this_parserNames (constructor l) = Some <$> l.*1
  ∧ this_parsers (constructor l) = Some <$> l.*2
  ∧ this_lastParser (constructor l) = None.
Proof.
  unfold constructor, each, new_Array.
  pose proof (each_from_fills l [] [] eq_refl) as H. simpl in H.
  rewrite H. done.
Qed.

Lemma descriptors_filled (l : list (string * classifier instance)) :
  omap (λ i, P ← array_get (Some <$> l.*2) i;
             Some (array_get (Some <$> l.*1) i, P))
       (seq 0 (length l))
  = (λ np, (Some np.1, np.2)) <$> l.
Proof.
  induction l as [|[name P] l IH] using rev_ind; [done|].
  rewrite length_app, Nat.add_comm. simpl length.
  rewrite seq_S, omap_app, !fmap_app. f_equal.
  - rewrite <-IH. apply list_omap_ext, Forall_Forall2_diag, Forall_forall.
    intros i [_ Hi]%elem_of_seq. simpl in Hi. unfold array_get.
    rewrite !lookup_app_l by (rewrite !length_fmap; lia). done.
  - simpl. unfold array_get.
    rewrite !lookup_app_r by (rewrite !length_fmap; lia).
    rewrite !length_fmap, Nat.sub_diag. done.
Qed.

(** The constructor clones the list of the module: the loop of
    [processEvent] of a new handler goes through the parsers of the list,
    all of them, in the order of the list and each under its own name;
    and no parser has been tried yet. *)
Theorem constructor_clones (l : list (string * classifier instance)) :
  descriptors (constructor l) = (λ np, (Some np.1, np.2)) <$> l
  ∧ this_lastParser (constructor l) = None.
Proof.
  destruct (constructor_fields l) as (Hn & Hp & Hl).
  split; [|done]. unfold descriptors. rewrite Hn, Hp.
  rewrite !length_fmap. apply descriptors_filled.
Qed.

End Properties.

(** * The properties at sample inputs *)

Lemma first_match_is_forwarded_witness :
  ∃ t, constructed t = ["cloudwatch"; "codebuild"; "rds"] ∧
    ∀ post,
      processEvent
        ([("cloudwatch", declining); ("codebuild", raising (Thrown (VStr "bad")))]
           ++ ("rds", answering (VStr "RDS event")) :: post)
        (VRef 1%positive) empty_event =
      (Ok (Parser tt (VStr "RDS event") "rds"),
       State (store empty_event) (Some "rds")
         (trace empty_event ++ Enter (VRef 1%positive) (store empty_event) :: t)).
Proof.
  apply (first_match_is_forwarded
           [("cloudwatch", declining); ("codebuild", raising (Thrown (VStr "bad")))]
           "rds" (answering (VStr "RDS event")) (VRef 1%positive) empty_event
           (store empty_event) tt (store empty_event) (VStr "RDS event")
           (store empty_event)); reflexivity.
Defined.

Lemma fault_is_decline_witness :
  ∃ r h' lp' t1 t2 d,
    processEvent
      ([("cloudwatch", declining)] ++ ("rds", raising (Thrown (VStr "bad")))
         :: [("generic", answering (VStr "Something happened"))])
      (VRef 1%positive) empty_event =
      (Ok r, State h' lp'
         (t1 ++ New "rds" :: d ++ parse_error "rds" (Thrown (VStr "bad")) :: t2))
    ∧ processEvent
        ([("cloudwatch", declining)] ++ ("rds", declining)
           :: [("generic", answering (VStr "Something happened"))])
        (VRef 1%positive) empty_event =
      (Ok r, State h' lp' (t1 ++ New "rds" :: Parse "rds" (VRef 1%positive) :: t2))
    ∧ (d = [] ∨ d = [Parse "rds" (VRef 1%positive)]).
Proof.
  apply (fault_is_decline [("cloudwatch", declining)] "rds"
           (raising (Thrown (VStr "bad"))) declining
           [("generic", answering (VStr "Something happened"))]
           (VRef 1%positive) empty_event (store empty_event)
           (Thrown (VStr "bad")) (store empty_event) tt (store empty_event)
           VUndefined); reflexivity.
Defined.

Lemma recognising_repeatable h0 l source text :
  is_Some (h0 !! l) → repeatable h0 (VRef l) (recognising source text).
Proof.
  intros [c Hc].
  assert (Hget : ∀ h, h0 ⊆ h →
            get_prop (VRef l) "EventSource" h = get_prop (VRef l) "EventSource" h0).
  { intros h Hsub. simpl. by rewrite (lookup_weaken _ _ _ _ Hc Hsub), Hc. }
  unfold repeatable, alike. split_and!; try done.
  - intros parser h H0. cbn [parse recognising]. rewrite (Hget h H0).
    destruct (get_prop (VRef l) "EventSource" h0) as [[| | | | |s|]|e]; try done.
    destruct (String.eqb s source); [|done].
    apply insert_subseteq, not_elem_of_dom, is_fresh.
  - intros parser h h' H0 Hsub. cbn [parse recognising].
    rewrite (Hget h H0), (Hget h') by (by etrans).
    destruct (get_prop (VRef l) "EventSource" h0) as [[| | | | |s|]|e];
      try done; try (by intros [|depth]).
    destruct (String.eqb s source); [|by intros [|depth]].
    simpl. intros [|depth]; [done|]. simpl.
    rewrite !lookup_insert_eq, !map_to_list_singleton. simpl. by destruct depth.
Defined.

Lemma processEvent_twice_witness :
  let parsers := [("cloudwatch", recognising "aws:cloudwatch" "CloudWatch alarm");
                  ("sns", recognising "aws:sns" "SNS event")] in
  let first := processEvent parsers (VRef 3%positive) sns_event in
  let second := processEvent parsers (VRef 3%positive) first.2 in
  ∃ r1 r2,
    first.1 = Ok r1 ∧ second.1 = Ok r2
    ∧ same_result r1 (store first.2) r2 (store second.2)
    ∧ lastParser second.2 = lastParser first.2.
Proof.
  apply (processEvent_twice
           [("cloudwatch", recognising "aws:cloudwatch" "CloudWatch alarm");
            ("sns", recognising "aws:sns" "SNS event")]
           (VRef 3%positive) sns_event).
  constructor; [by apply recognising_repeatable|].
  constructor; [by apply recognising_repeatable|].
  constructor.
Defined.

(** The two runs of the witness return the parser "sns", each with a
    message of its own: two objects with the same property. *)
Example composed_twice :
  let parsers := [("cloudwatch", recognising "aws:cloudwatch" "CloudWatch alarm");
                  ("sns", recognising "aws:sns" "SNS event")] in
  let first := processEvent parsers (VRef 3%positive) sns_event in
  let second := processEvent parsers (VRef 3%positive) first.2 in
  first.1 = Ok (Parser tt (VRef 7%positive) "sns")
  ∧ second.1 = Ok (Parser tt (VRef 8%positive) "sns")
  ∧ store second.2 !! 7%positive = Some (CObj {["text" := VStr "SNS event"]})
  ∧ store second.2 !! 8%positive = Some (CObj {["text" := VStr "SNS event"]}).
Proof. split_and!; reflexivity. Qed.

Lemma null_event_fails_witness :
  ∃ t,
    handler delivering sample_parse sample_stringify
      [("generic", answering (VStr "Something happened"))]
      (VStr "null") (VRef 5%positive) sns_event =
      (Ok tt, State (store (started (VStr "null"))) None (trace sns_event ++ t))
    ∧ callbacks t = [Some TypeError]
    ∧ posted t = []
    ∧ entered t = [].
Proof.
  apply (null_event_fails delivering sample_parse sample_stringify
           [("generic", answering (VStr "Something happened"))]
           (VStr "null") (VRef 5%positive) sns_event
           (started (VStr "null")) VNull (started (VStr "null"))).
  - reflexivity.
  - reflexivity.
  - by left.
Defined.

Lemma ingest_then_dispatch_witness :
  handler delivering sample_parse sample_stringify
    [("generic", answering (VStr "Something happened"))]
    (VStr "not json") (VRef 5%positive) sns_event =
  dispatch delivering sample_stringify
    [("generic", answering (VStr "Something happened"))]
    (VStr "not json")
    (State (store (started (VStr "not json"))) None
       [Console Log [AVal (VStr "Incoming Message:"); AVal (VStr "not json")];
        Console Error
          [AVal (VStr "Error parsing event JSON (continuing...): not json")]]).
Proof.
  exact (ingest_then_dispatch delivering sample_parse sample_stringify
           [("generic", answering (VStr "Something happened"))]
           (VStr "not json") (VRef 5%positive) sns_event
           (started (VStr "not json")) eq_refl).
Defined.

Lemma composing_keeps l text : parser_keeps l (composing text).
Proof.
  split.
  - by intros h _.
  - intros parser event h Hl. simpl. by apply alloc_other.
Defined.

Lemma sample_chain_keeps l :
  collaborators_keep delivering l
    [("cloudwatch", declining); ("rds", composing "RDS event")].
Proof.
  split.
  - repeat constructor; simpl; try done. apply composing_keeps.
  - by intros message h _.
Defined.

Lemma fan_out_keeps_event_witness :
  ∃ h' lp' t,
    dispatch delivering sample_stringify
      [("cloudwatch", declining); ("rds", composing "RDS event")]
      (VRef 1%positive) sns_event =
      (Ok tt, State h' lp' (trace sns_event ++ t))
    ∧ h' !! 1%positive
      = Some (CObj {["Records" := VRef 2%positive; "Type" := VStr "Notification"]})
    ∧ h' !! 2%positive = Some (CArr [VRef 3%positive; VRef 4%positive])
    ∧ ∀ run, run ∈ entered t →
             run.1 ≠ VRef 1%positive
             ∧ ∃ record,
                 record ∈ [VRef 3%positive; VRef 4%positive]
                 ∧ is_single_record_copy
                     {["Records" := VRef 2%positive; "Type" := VStr "Notification"]}
                     record run.
Proof.
  apply (fan_out_keeps_event delivering sample_stringify
           [("cloudwatch", declining); ("rds", composing "RDS event")]
           1%positive
           {["Records" := VRef 2%positive; "Type" := VStr "Notification"]}
           2%positive [VRef 3%positive; VRef 4%positive] sns_event).
  - reflexivity.
  - reflexivity.
  - reflexivity.
  - simpl. lia.
  - apply sample_chain_keeps.
  - apply sample_chain_keeps.
Defined.

Lemma one_dispatch_per_record_witness :
  (∃ h' lp' segments c,
     dispatch delivering sample_stringify
       [("cloudwatch", declining); ("rds", composing "RDS event")]
       (VRef 1%positive) sns_event =
       (Ok tt,
        State h' lp'
          (trace sns_event ++ concat segments.*1
             ++ match c with
                | None => [Callback None]
                | Some e =>
                    [Console Log [AVal (VStr "ERROR:"); AExn e]; Callback (Some e)]
                end))
     ∧ Forall2
         (record_segment delivering sample_stringify
            [("cloudwatch", declining); ("rds", composing "RDS event")]
            {["Records" := VRef 2%positive; "Type" := VStr "Notification"]})
         (take (length segments) [VRef 3%positive; VRef 4%positive]) segments
     ∧ match c with
       | None => length segments = 2 ∧ Forall (λ sg, sg.2 = None) segments
       | Some e =>
           ∃ front sg, segments = front ++ [(sg, Some e)]
                       ∧ Forall (λ sg, sg.2 = None) front
       end)
  ∧ (∃ h' lp' t,
       dispatch delivering sample_stringify
         [("cloudwatch", declining); ("rds", composing "RDS event")]
         (VRef 3%positive) sns_event =
         (Ok tt, State h' lp' (trace sns_event ++ t))
       ∧ entered t = [(VRef 3%positive, store sns_event)]).
Proof.
  split.
  - apply (proj1 (one_dispatch_per_record delivering sample_stringify
                    [("cloudwatch", declining); ("rds", composing "RDS event")]
                    (VRef 1%positive) sns_event)
             1%positive
             {["Records" := VRef 2%positive; "Type" := VStr "Notification"]}
             2%positive [VRef 3%positive; VRef 4%positive]).
    + reflexivity.
    + reflexivity.
    + reflexivity.
    + reflexivity.
    + simpl. lia.
    + apply sample_chain_keeps.
    + apply sample_chain_keeps.
  - apply (proj2 (one_dispatch_per_record delivering sample_stringify
                    [("cloudwatch", declining); ("rds", composing "RDS event")]
                    (VRef 3%positive) sns_event)).
    + discriminate.
    + discriminate.
    + intros recs. vm_compute. discriminate.
Defined.

(** C4, as stated, fails: with two records and a sink that raises, the
    second record is never dispatched. *)
Lemma failed_delivery_ends_the_loop :
  records_of (VRef 1%positive) (store sns_event)
    = Some [VRef 3%positive; VRef 4%positive]
  ∧ length (entered (trace
        (dispatch (undeliverable (Thrown (VStr "timeout"))) sample_stringify
           [("generic", answering (VStr "Something happened"))]
           (VRef 1%positive) sns_event).2)) = 1.
Proof. split; reflexivity. Qed.

Lemma string_answer_serialisable e name message :
  serialisable (rejecting_stringify e) [(name, answering (VStr message))].
Proof.
  intros V h (name' & P & parser & event & h1 & Hin & Hparse).
  apply list_elem_of_singleton in Hin. injection Hin as -> ->.
  injection Hparse as <- <-. by eexists.
Defined.

Lemma failure_is_sink_failure_witness :
  ∃ h' lp' t,
    handler (undeliverable (Thrown (VStr "timeout"))) sample_parse
      (rejecting_stringify (Thrown (VStr "cyclic object value")))
      [("generic", answering (VStr "Something happened"))]
      (VStr "not json") (VRef 5%positive) sns_event =
      (Ok tt, State h' lp' (trace sns_event ++ t))
    ∧ ((sink_errors t = [] ∧ callbacks t = [None])
       ∨ ∃ e, sink_errors t = [e] ∧ callbacks t = [Some e]).
Proof.
  apply (failure_is_sink_failure (undeliverable (Thrown (VStr "timeout")))
           sample_parse (rejecting_stringify (Thrown (VStr "cyclic object value")))
           [("generic", answering (VStr "Something happened"))]
           (VStr "not json") (VRef 5%positive) sns_event
           (started (VStr "not json")) (VStr "not json")
           (State (store (started (VStr "not json"))) None
              [Console Log [AVal (VStr "Incoming Message:"); AVal (VStr "not json")];
               Console Error
                 [AVal (VStr "Error parsing event JSON (continuing...): not json")]])).
  - reflexivity.
  - reflexivity.
  - discriminate.
  - discriminate.
  - discriminate.
  - apply string_answer_serialisable.
Defined.

(** C7, as stated, fails: the text [null] decodes to [null], and the
    handler calls back with a TypeError although the sink was never
    called. *)
Lemma null_text_fails_without_delivery :
  let run := handler delivering sample_parse sample_stringify
               [("generic", answering (VStr "Something happened"))]
               (VStr "null") (VRef 5%positive) sns_event in
  callbacks (trace run.2) = [Some TypeError] ∧ posted (trace run.2) = [].
Proof. split; reflexivity. Qed.

(** C2 — the diagnostic of a suppressed single event.  The parser
    "codebuild" returns an empty object for the event 3: the dispatch
    stops there ([lastParser] is "codebuild"), the sink is not called and
    the invocation succeeds, but the diagnostic of line 127 reads
    [handler.parserName], which is undefined, and does not name the
    parser. *)
Theorem suppression_diagnostic_is_unnamed :
  let run := dispatch delivering sample_stringify
               [("cloudwatch", declining); ("codebuild", answering (VRef 6%positive))]
               (VRef 3%positive) sns_event in
  lastParser run.2 = Some "codebuild"
  ∧ console (trace run.2)
    = [(Error, [AVal (VStr "Parser[undefined] is force-ignoring event")])]
  ∧ posted (trace run.2) = []
  ∧ callbacks (trace run.2) = [None].
Proof. split_and!; reflexivity. Qed.

(** C5 — the diagnostic of an exhausted chain.  Every parser declines:
    the sink is not called and the invocation succeeds, but [lastParser]
    holds the name of the last parser tried, so that the handler takes the
    branch of a suppressed event and never logs that no parser matched;
    so it is for a single event (3) and for the records of a fan-out (1). *)
Theorem exhaustion_diagnostic_is_force_ignoring :
  let parsers := [("cloudwatch", declining); ("generic", declining)] in
  let one := dispatch delivering sample_stringify parsers (VRef 3%positive) sns_event in
  let many := dispatch delivering sample_stringify parsers (VRef 1%positive) sns_event in
  console (trace one.2)
    = [(Error, [AVal (VStr "Parser[undefined] is force-ignoring event")])]
  ∧ posted (trace one.2) = []
  ∧ callbacks (trace one.2) = [None]
  ∧ console (trace many.2)
    = [(Error, [AVal (VStr "Parser force-ignoring SNS event[0]: generic")]);
       (Error, [AVal (VStr "Parser force-ignoring SNS event[1]: generic")])]
  ∧ posted (trace many.2) = []
  ∧ callbacks (trace many.2) = [None].
Proof. split_and!; reflexivity. Qed.

(** C1, as stated, fails: the number 42 is truthy, is not [true] and is
    not a structurally empty mapping or sequence, and yet the parser that
    returns it is not forwarded: [_.isEmpty(42)] is true and the dispatch
    stops with [null]. *)
Lemma truthy_number_is_not_forwarded :
  truthy (VNum 42) = true
  ∧ is_true (VNum 42) = false
  ∧ structurally_empty (VNum 42) (store sns_event) = false
  ∧ (processEvent [("cloudwatch", answering (VNum 42)); ("generic", declining)]
       (VRef 3%positive) sns_event).1 = Ok Null.
Proof. split_and!; reflexivity. Qed.

(** A parser whose instances are frozen: the assignment of line 62 raises,
    the fault is logged, and the dispatch goes on with the next parser. *)
Example refused_assignment_is_a_fault :
  processEvent [("rds", sealed (VStr "RDS event"));
                ("generic", answering (VStr "Something happened"))]
    (VRef 3%positive) sns_event =
  (Ok (Parser tt (VStr "Something happened") "generic"),
   State (store sns_event) (Some "generic")
     [Enter (VRef 3%positive) (store sns_event);
      New "rds"; Parse "rds" (VRef 3%positive); parse_error "rds" TypeError;
      New "generic"; Parse "generic" (VRef 3%positive)]).
Proof. reflexivity. Qed.

(** ** Further properties of the dispatch, at sample inputs *)

Lemma first_empty_is_null_witness :
  ∃ t, constructed t = ["cloudwatch"; "codebuild"] ∧ posted t = [] ∧
    ∀ post,
      processEvent
        ([("cloudwatch", declining)] ++ ("codebuild", answering (VRef 6%positive)) :: post)
        (VRef 3%positive) sns_event =
      (Ok Null,
       State (store sns_event) (Some "codebuild")
         (trace sns_event ++ Enter (VRef 3%positive) (store sns_event) :: t)).
Proof.
  apply (first_empty_is_null [("cloudwatch", declining)] "codebuild"
           (answering (VRef 6%positive)) (VRef 3%positive) sns_event
           (store sns_event) tt (store sns_event) (VRef 6%positive)
           (store sns_event)); reflexivity.
Defined.

Lemma exhausted_is_undefined_witness :
  ∃ t, constructed t = ["cloudwatch"; "generic"] ∧ posted t = [] ∧
    processEvent
      [("cloudwatch", declining); ("generic", raising (Thrown (VStr "bad")))]
      (VRef 3%positive) sns_event =
    (Ok Undefined,
     State (store sns_event) (Some "generic")
       (trace sns_event ++ Enter (VRef 3%positive) (store sns_event) :: t)).
Proof.
  apply (exhausted_is_undefined
           [("cloudwatch", declining); ("generic", raising (Thrown (VStr "bad")))]
           (VRef 3%positive) sns_event (store sns_event)); reflexivity.
Defined.

Lemma handler_raises_before_try_witness :
  handler delivering sample_parse sample_stringify
    [("generic", answering (VStr "Something happened"))]
    (VRef 3%positive) VNull sns_event = (Raise TypeError, sns_event)
  ∧ ∃ h,
      handler delivering sample_parse
        (rejecting_stringify (Thrown (VStr "cyclic object value")))
        [("generic", answering (VStr "Something happened"))]
        (VRef 3%positive) (VRef 5%positive) sns_event =
      (Raise (Thrown (VStr "cyclic object value")),
       State h (lastParser sns_event) (trace sns_event)).
Proof.
  split.
  - apply (proj1 (handler_raises_before_try delivering sample_parse sample_stringify
                    [("generic", answering (VStr "Something happened"))]
                    (VRef 3%positive) VNull sns_event)).
    discriminate.
  - apply (proj2 (handler_raises_before_try delivering sample_parse
                    (rejecting_stringify (Thrown (VStr "cyclic object value")))
                    [("generic", answering (VStr "Something happened"))]
                    (VRef 3%positive) (VRef 5%positive) sns_event)
             5%positive); reflexivity.
Defined.

Lemma sample_parse_keeps l text : keeps_cell l (sample_parse text).
Proof.
  intros h _. unfold sample_parse. by destruct (String.eqb text "null").
Defined.

Lemma handler_calls_back_once_witness :
  ∃ h' lp' t c,
    handler delivering sample_parse sample_stringify
      [("cloudwatch", declining); ("rds", composing "RDS event")]
      (VStr "not json") (VRef 5%positive) sns_event =
      (Ok tt, State h' lp' (trace sns_event ++ t ++ [Callback c]))
    ∧ callbacks t = [].
Proof.
  apply (handler_calls_back_once delivering sample_parse sample_stringify
           [("cloudwatch", declining); ("rds", composing "RDS event")]
           (VStr "not json") (VRef 5%positive) sns_event (started (VStr "not json"))).
  reflexivity.
Defined.

Lemma context_flag_at_callback_witness :
  ∃ h' lp' t c,
    handler delivering sample_parse sample_stringify
      [("cloudwatch", declining); ("rds", composing "RDS event")]
      (VRef 1%positive) (VRef 5%positive) sns_event =
      (Ok tt, State h' lp' (trace sns_event ++ t ++ [Callback c]))
    ∧ h' !! 5%positive
      = Some (CObj (<["callbackWaitsForEmptyEventLoop" := VBool false]> ∅)).
Proof.
  apply (context_flag_at_callback delivering sample_parse sample_stringify
           [("cloudwatch", declining); ("rds", composing "RDS event")]
           (VRef 1%positive) 5%positive ∅ sns_event (started (VRef 1%positive))).
  - reflexivity.
  - reflexivity.
  - apply sample_chain_keeps.
  - intros text. apply sample_parse_keeps.
Defined.

Lemma unmatched_is_logged_as_ignored_witness :
  let parsers := [("cloudwatch", declining); ("codebuild", answering (VRef 6%positive))] in
  let s1 := (processEvent parsers (VRef 3%positive)
               (State (store sns_event) None (trace sns_event))).2 in
  dispatch delivering sample_stringify parsers (VRef 3%positive) sns_event =
    (Ok tt,
     State (store s1) (lastParser s1)
       (trace s1 ++ [Console Error
                       [AVal (VStr "Parser[undefined] is force-ignoring event")];
                     Callback None])).
Proof.
  apply (unmatched_is_logged_as_ignored delivering sample_stringify
           [("cloudwatch", declining); ("codebuild", answering (VRef 6%positive))]
           (VRef 3%positive) sns_event Null).
  - discriminate.
  - repeat constructor; discriminate.
  - discriminate.
  - discriminate.
  - intros recs. vm_compute. discriminate.
  - reflexivity.
  - discriminate.
Defined.

Lemma empty_chain_matches_nothing_witness :
  dispatch delivering sample_stringify (@nil (string * classifier unit))
    (VRef 3%positive) sns_event =
    (Ok tt,
     State (store sns_event) None
       (trace sns_event ++ [Enter (VRef 3%positive) (store sns_event);
                            Console Log [AVal (VStr "No parser matched event")];
                            Callback None])).
Proof.
  apply (empty_chain_matches_nothing delivering sample_stringify
           (VRef 3%positive) sns_event).
  - discriminate.
  - discriminate.
  - intros recs. vm_compute. discriminate.
Defined.


Lemma unserialisable_message_is_not_sent_witness :
  let parsers := [("cloudwatch", declining); ("rds", composing "RDS event")] in
  let s1 := (processEvent parsers (VRef 3%positive)
               (State (store sns_event) None (trace sns_event))).2 in
  dispatch delivering (rejecting_stringify (Thrown (VStr "cyclic object value")))
    parsers (VRef 3%positive) sns_event =
    (Ok tt,
     State (store s1) (lastParser s1)
       (trace s1 ++ [Console Log [AVal (VStr "ERROR:");
                                  AExn (Thrown (VStr "cyclic object value"))];
                     Callback (Some (Thrown (VStr "cyclic object value")))])).
Proof.
  apply (unserialisable_message_is_not_sent delivering
           (rejecting_stringify (Thrown (VStr "cyclic object value")))
           [("cloudwatch", declining); ("rds", composing "RDS event")]
           (VRef 3%positive) sns_event tt (VRef 7%positive) "rds").
  - discriminate.
  - discriminate.
  - intros recs. vm_compute. discriminate.
  - reflexivity.
  - reflexivity.
Defined.

Lemma dispatch_writes_only_new_objects_witness :
  store (dispatch delivering sample_stringify
           [("cloudwatch", declining); ("rds", composing "RDS event")]
           (VRef 1%positive) sns_event).2 !! 1%positive
  = Some (CObj {["Records" := VRef 2%positive; "Type" := VStr "Notification"]}).
Proof.
  apply (dispatch_writes_only_new_objects delivering sample_stringify
           [("cloudwatch", declining); ("rds", composing "RDS event")]
           (VRef 1%positive) sns_event 1%positive).
  - reflexivity.
  - apply sample_chain_keeps.
Defined.
